(** * MJPEG capture pipeline of [index.js]: demuxer, inference gate,
      classifier adapter and reporting, as a shallow embedding.

    Layout: [Demuxer], [Adapter] and [Pipeline] hold the embedding of the
    source and [Samples] a few concrete inputs (definitions only); the
    lemmas and the theorems follow in [DemuxerFacts], [AdapterFacts] and
    [PipelineFacts].  [Raster], [Observations] and [Loader] (definitions)
    and [DemuxerMore], [AdapterMore], [PipelineMore] and [LoaderFacts]
    (theorems) cover further behaviour of the same code and the model
    loader. *)

From Stdlib Require Import ZArith Lia String DecimalString Reals Lra.
From Stdlib.Strings Require Import Byte.
From Stdlib Require Import DecimalNat DecimalFacts.
From stdpp Require Import base list sorting.

Set Default Proof Using "Type".

(** A Node [Buffer] / [Uint8Array] is a list of bytes. *)
Abbreviation Buffer := (list byte).

(* ================================================================= *)
(** ** Frame demuxer ([createMJPEGFrameParser], index.js 113-135)     *)
(* ================================================================= *)

Module Demuxer.

(** [Buffer.from([0xff, 0xd8])] and [Buffer.from([0xff, 0xd9])]. *)
Definition SOI : Buffer := [xff; xd8].
Definition EOI : Buffer := [xff; xd9].

(** Does [hay] begin with the bytes of [needle]? *)
Fixpoint starts_with (hay needle : Buffer) {struct needle} : bool :=
  match needle, hay with
  | [], _ => true
  | _ :: _, [] => false
  | n :: needle', h :: hay' => Byte.eqb n h && starts_with hay' needle'
  end.

(** Left-to-right search; [pos] is the index of the head of [hay] in
    the buffer the search started from. *)
Fixpoint scan (hay needle : Buffer) (pos : nat) : option nat :=
  match hay with
  | [] => if starts_with [] needle then Some pos else None
  | _ :: hay' =>
      if starts_with hay needle then Some pos else scan hay' needle (S pos)
  end.

(** [buf.indexOf(needle, byteOffset)]: the first index at or after
    [byteOffset] where [needle] occurs; [None] stands for JavaScript's
    [-1]. *)
Definition indexOf (buf needle : Buffer) (byteOffset : nat) : option nat :=
  scan (drop byteOffset buf) needle byteOffset.

(** [buf.subarray(start, end)] and [buf.subarray(start)]. *)
Definition subarray (buf : Buffer) (start stop : nat) : Buffer :=
  take (stop - start) (drop start buf).
Definition subarray_from (buf : Buffer) (start : nat) : Buffer :=
  drop start buf.

(** The no-start-marker branch (line 123): keep a small tail once the
    window is larger than 1024 * 1024 bytes. *)
Definition truncate (buf : Buffer) : Buffer :=
  if (Z.of_nat (length buf) >? 1024 * 1024)%Z
  then subarray_from buf (length buf - 1024)
  else buf.

Section Parser.
Context {St : Type}.
(** The callback, as a transformer of whatever state it closes over. *)
Variable onFrameJpegBuffer : Buffer → St → St.

(** The [while (true)] loop of lines 119-133.  Every iteration that
    does not return removes at least four bytes from the window, so
    [fuel] above the window length is never used up; [None] is fuel
    exhaustion. *)
Fixpoint parse_loop (fuel : nat) (buf : Buffer) (st : St)
  : option (Buffer * St) :=
  match fuel with
  | O => None
  | S fuel' =>
      match indexOf buf SOI 0 with
      | None => Some (truncate buf, st)
      | Some soi =>
          match indexOf buf EOI (soi + 2) with
          | None => Some (buf, st)
          | Some eoi =>
              let frame := subarray buf soi (eoi + 2) in
              let buf' := subarray_from buf (eoi + 2) in
              parse_loop fuel' buf' (onFrameJpegBuffer frame st)
          end
      end
  end.

(** The loop on window [buf] with fuel above its length.  The
    default of the [match] is dead code ([DemuxerFacts.parse_runs]). *)
Definition run (buf : Buffer) (st : St) : Buffer * St :=
  match parse_loop (S (length buf)) buf st with
  | Some r => r
  | None => (buf, st)
  end.

(** One call of the returned closure: [buf = Buffer.concat([buf, chunk])]
    and the loop. *)
Definition parse (buf chunk : Buffer) (st : St) : Buffer * St :=
  run (buf ++ chunk) st.

(** Chunks delivered one after the other, from window [buf]. *)
Fixpoint parse_all (buf : Buffer) (chunks : list Buffer) (st : St)
  : Buffer * St :=
  match chunks with
  | [] => (buf, st)
  | chunk :: chunks' =>
      let '(buf', st') := parse buf chunk st in
      parse_all buf' chunks' st'
  end.
End Parser.

(** The demuxer observed through a callback that records each frame it
    is handed, in call order. *)
Definition record_frame (frame : Buffer) (seen : list Buffer) : list Buffer :=
  seen ++ [frame].

(** Window and emitted frames after feeding [chunks] to a fresh parser
    ([let buf = Buffer.alloc(0)]). *)
Definition feed_chunks (chunks : list Buffer) : Buffer * list Buffer :=
  parse_all record_frame [] chunks [].

Definition emitted (chunks : list Buffer) : list Buffer :=
  snd (feed_chunks chunks).
Definition window (chunks : list Buffer) : Buffer :=
  fst (feed_chunks chunks).

(** Frames one pass of the loop extracts from a window, and what it
    leaves in it. *)
Definition frames_in (buf : Buffer) : list Buffer :=
  snd (run record_frame buf []).
Definition remainder (buf : Buffer) : Buffer :=
  fst (run record_frame buf []).

(** What the loop can still see of a window: everything from its first
    start marker on, or, without one, a final [0xff] that may yet become
    one. *)
Definition visible (buf : Buffer) : Buffer :=
  match indexOf buf SOI 0 with
  | Some soi => drop soi buf
  | None =>
      match last buf with
      | Some b => if Byte.eqb b xff then [xff] else []
      | None => []
      end
  end.

(** Length of the part of a window that lies before its first start
    marker (the whole window when it holds none). *)
Definition markerless_prefix (buf : Buffer) : nat :=
  match indexOf buf SOI 0 with
  | Some soi => soi
  | None => length buf
  end.

(** A frame delimited by the two markers: start marker, payload, end
    marker. *)
Definition delimited (frame : Buffer) : Prop :=
  ∃ payload, frame = SOI ++ payload ++ EOI.

(** The first end marker the demuxer's search meets in the frame (from
    offset 2 on) is the one that closes it. *)
Definition closes_first (frame : Buffer) : Prop :=
  indexOf frame EOI 2 = Some (length frame - 2).

End Demuxer.

(* ================================================================= *)
(** ** Classifier adapter and ranking (index.js 8-28, 166-187)        *)
(* ================================================================= *)

(** tfjs computes on 32-bit floats; the embedding takes tensor entries,
    scores and probabilities as real numbers, so rounding, overflow and
    NaN are outside it.  An equation between such numbers stands for
    one up to rounding; since rounding can make two close probabilities
    equal and a tiny one zero, the theorems compare probabilities with
    [<=] only and claim nothing that rests on one being strictly above
    another or above zero. *)

Module Adapter.

Definition LABELS : list string :=
  ["TEACH"; "STRONG"; "STOP"; "SORRY"; "PLEASE"]%string.
Definition IMAGE_SIZE : nat := 224.
Definition WIDTH : nat := 224.
Definition HEIGHT : nat := 224.

(** Reading and writing a [Uint8Array] by index: a read past the end
    is [undefined], which a typed array stores as [0]; a write past the
    end is ignored. *)
Definition u8_get (a : Buffer) (i : nat) : byte := default x00 (a !! i).
Definition u8_set (a : Buffer) (i : nat) (v : byte) : Buffer := <[i:=v]> a.

(** The [for (let i = 0, j = 0; i < rgba.length; i += 4)] loop of lines
    174-178. *)
Fixpoint rgb_loop (fuel : nat) (rgba : Buffer) (i j : nat) (rgb : Buffer)
  : Buffer :=
  match fuel with
  | O => rgb
  | S fuel' =>
      if i <? length rgba then
        let rgb := u8_set rgb j (u8_get rgba i) in
        let rgb := u8_set rgb (j + 1) (u8_get rgba (i + 1)) in
        let rgb := u8_set rgb (j + 2) (u8_get rgba (i + 2)) in
        rgb_loop fuel' rgba (i + 4) (j + 3) rgb
      else rgb
  end.

(** [new Uint8Array(WIDTH * HEIGHT * 3)] filled by the loop; [i] grows by
    four per iteration, so [length rgba] iterations are never used up. *)
Definition rgba_to_rgb (rgba : Buffer) : Buffer :=
  rgb_loop (length rgba) rgba 0 0 (replicate (WIDTH * HEIGHT * 3) x00).

Record Tensor := { shape : list nat; values : list R }.

Definition byte_value (b : byte) : R := IZR (Z.of_N (Byte.to_N b)).

(** [tf.tensor3d(values, shape, "int32")]; [None] is the exception tfjs
    raises when the number of values does not fit the shape. *)
Definition tensor3d (data : Buffer) (shp : list nat) : option Tensor :=
  if decide (length data = foldr Nat.mul 1 shp)
  then Some {| shape := shp; values := byte_value <$> data |}
  else None.

(** [t.toFloat()], [t.div(d)] and [t.expandDims(0)]. *)
Definition toFloat (t : Tensor) : Tensor := t.
Definition div (t : Tensor) (d : R) : Tensor :=
  {| shape := shape t; values := (λ x, x / d)%R <$> values t |}.
Definition expandDims0 (t : Tensor) : Tensor :=
  {| shape := 1 :: shape t; values := values t |}.

(** Lines 170-181: the input tensor built from the decoded pixels. *)
Definition make_input (rgba : Buffer) : option Tensor :=
  img ← tensor3d (rgba_to_rgb rgba) [HEIGHT; WIDTH; 3];
  Some (expandDims0 (div (toFloat img) 255)).

(** The tensor these lines always arrive at ([AdapterFacts.make_input_Some]). *)
Definition input_of (rgba : Buffer) : Tensor :=
  {| shape := [1; HEIGHT; WIDTH; 3];
     values := (λ b, byte_value b / 255)%R <$> rgba_to_rgb rgba |}.

Definition Rsum (xs : list R) : R := foldr Rplus 0%R xs.

(** [tf.softmax]. *)
Definition softmax (scores : list R) : list R :=
  (λ x, exp x / Rsum (exp <$> scores))%R <$> scores.

(** One ranked entry, [{label, p}]. *)
Record Entry := { label : string; p : R }.

(** [LABELS[i] ?? String(i)]. *)
Definition label_of (i : nat) : string :=
  default (NilZero.string_of_uint (Nat.to_uint i)) (LABELS !! i).

Definition entries_of (probs : list R) : list Entry :=
  imap (λ i x, {| label := label_of i; p := x |}) probs.

(** [arr.sort((a, b) => b.p - a.p)]: the sort is stable, and for a
    comparator that orders the entries consistently its result is the
    one stable insertion produces. *)
Fixpoint insert_desc (x : Entry) (l : list Entry) : list Entry :=
  match l with
  | [] => [x]
  | y :: l' =>
      if Rle_dec (p y) (p x) then x :: y :: l' else y :: insert_desc x l'
  end.
Definition sort_desc (l : list Entry) : list Entry := foldr insert_desc [] l.

(** [a] does not rank below [b]. *)
Definition ranks_before (a b : Entry) : Prop := (p b <= p a)%R.

(** [topK(probs, k)], lines 21-28. *)
Definition topK (probs : list R) (k : nat) : list Entry :=
  take k (sort_desc (entries_of probs)).

End Adapter.

(* ================================================================= *)
(** ** Frame handler and event loop ([main], index.js 151-210)        *)
(* ================================================================= *)

Module Pipeline.
Import Adapter.

(** What [jpeg.decode] can do: throw, return nothing usable
    ([!decoded || !decoded.data]), or return [{width, height, data}]. *)
Inductive DecodeResult :=
| DecodeThrows
| DecodeNoData
| Decoded (width height : nat) (data : Buffer).

(** What the outside world answers during one call of the handler.
    [player.killed] is set by a [kill] that this process sent, not by
    the player ending; what becomes of the bytes written to the player
    is never looked at, so it is no answer. *)
Record Answers := {
  player_killed : bool;                       (* player.killed *)
  decode_result : DecodeResult;               (* jpeg.decode(jpegBuf) *)
  predict_result : Tensor → option (list R);  (* model.predict; None: raises *)
}.

Record Report := { time : Z; entries : list Entry }.

(** Calls to the outside and writes of the shared flag, in program
    order. *)
Inductive Effect :=
| Write (frame : Buffer)
| SetBusy (b : bool)
| Decode (frame : Buffer)
| Predict (input : Tensor)
| Log (r : Report).

(** The variables the handler closes over, the activations suspended at
    [await probsTensor.data()] (each with the probabilities it waits
    for, oldest first), and what has been observed so far. *)
Record State := {
  busy : bool;
  lastLog : Z;
  awaiting : list (list R);
  trace : list Effect;
  received : list Buffer;   (* frames the handler was called with *)
  gated : list (Buffer * bool);
    (* frames that came to the test of line 161, with the flag they met *)
}.

Definition init : State :=
  {| busy := false; lastLog := 0; awaiting := []; trace := [];
     received := []; gated := [] |}.

Definition emit (e : Effect) (st : State) : State :=
  {| busy := busy st; lastLog := lastLog st; awaiting := awaiting st;
     trace := trace st ++ [e]; received := received st;
     gated := gated st |}.

Definition set_busy (b : bool) (st : State) : State :=
  emit (SetBusy b)
    {| busy := b; lastLog := lastLog st; awaiting := awaiting st;
       trace := trace st; received := received st; gated := gated st |}.

Definition set_lastLog (now : Z) (st : State) : State :=
  {| busy := busy st; lastLog := now; awaiting := awaiting st;
     trace := trace st; received := received st; gated := gated st |}.

Definition set_awaiting (q : list (list R)) (st : State) : State :=
  {| busy := busy st; lastLog := lastLog st; awaiting := q;
     trace := trace st; received := received st; gated := gated st |}.

Definition receive (frame : Buffer) (st : State) : State :=
  {| busy := busy st; lastLog := lastLog st; awaiting := awaiting st;
     trace := trace st; received := received st ++ [frame];
     gated := gated st |}.

(** A frame comes to the gate and meets the flag as it stands. *)
Definition arrive (frame : Buffer) (st : State) : State :=
  {| busy := busy st; lastLog := lastLog st; awaiting := awaiting st;
     trace := trace st; received := received st;
     gated := gated st ++ [(frame, busy st)] |}.

(** How a call of the async handler ends for its caller: the promise is
    fulfilled, the body is suspended at the [await], or the promise is
    rejected by an exception that left the body. *)
Inductive Completion := Returned | Suspended | Rejected.

(** Lines 164-185 and the [catch] / [finally] of 202-207: the body of the
    [try] up to the [await], for a frame that passed the gate. *)
Definition infer (w : Answers) (frame : Buffer) (st : State)
  : Completion * State :=
  let st := emit (Decode frame) st in
  match decode_result w with
  | DecodeThrows => (Returned, set_busy false st)
  | DecodeNoData => (Returned, set_busy false st)
  | Decoded _ _ rgba =>
      match make_input rgba with
      | None => (Returned, set_busy false st)
      | Some input =>
          let st := emit (Predict input) st in
          match predict_result w input with
          | None => (Returned, set_busy false st)
          | Some scores =>
              (Suspended, set_awaiting (awaiting st ++ [softmax scores]) st)
          end
      end
  end.

(** Lines 161-162. *)
Definition gate (w : Answers) (frame : Buffer) (st : State)
  : Completion * State :=
  if busy st then (Returned, st)
  else infer w frame (set_busy true st).

(** Lines 156-158.  [write] queues the bytes and returns; whether they
    reach the player is not reported to the caller: a failure shows
    later, as an ['error'] event of [player.stdin], for which the program
    registers no listener. *)
Definition forward (w : Answers) (frame : Buffer) (st : State) : State :=
  if player_killed w then st else emit (Write frame) st.

(** The handler up to its first suspension (lines 154-208): the preview
    write, then the gate. *)
Definition onFrame (w : Answers) (frame : Buffer) (st : State)
  : Completion * State :=
  let st := receive frame st in
  let st := forward w frame st in
  gate w frame (arrive frame st).

(** How the awaited [probsTensor.data()] settles; [now] is what
    [Date.now()] returns when the body goes on. *)
Inductive Settled := Resolved (now : Z) | Failed.

(** Lines 189-201.  With no entry at all [best] is [undefined] and
    [best.label] raises inside the [try], after [lastLog] was set. *)
Definition report (now : Z) (probs : list R) (st : State) : State :=
  if (now - lastLog st >? 500)%Z then
    let st := set_lastLog now st in
    match topK probs 2 with
    | [] => st
    | ranked => emit (Log {| time := now; entries := ranked |}) st
    end
  else st.

(** The rest of the body after the [await], then [finally]. *)
Definition resume (o : Settled) (st : State) : State :=
  match awaiting st with
  | [] => st
  | probs :: rest =>
      let st := set_awaiting rest st in
      let st := match o with
                | Resolved now => report now probs st
                | Failed => st
                end in
      set_busy false st
  end.

(** What the event loop delivers: a chunk from ffmpeg's stdout (line
    210) or the settling of the awaited promise. *)
Inductive Event := Data (chunk : Buffer) | Settle (o : Settled).

Record System := { buf : Buffer; handler : State }.

Definition start : System := {| buf := []; handler := init |}.

Section Run.
(** [world k] holds the answers given during the handler's call
    number [k]. *)
Variable world : nat → Answers.

(** The callback handed to [createMJPEGFrameParser]; the parser drops
    the promise it returns. *)
Definition callback (frame : Buffer) (st : State) : State :=
  snd (onFrame (world (length (received st))) frame st).

Definition step (sys : System) (ev : Event) : System :=
  match ev with
  | Data chunk =>
      let '(buf', st') := Demuxer.parse callback (buf sys) chunk (handler sys) in
      {| buf := buf'; handler := st' |}
  | Settle o => {| buf := buf sys; handler := resume o (handler sys) |}
  end.

Definition run_events (evs : list Event) : System := foldl step start evs.
End Run.

(** The states the handler's variables go through: between any two
    calls of the handler, also inside one chunk, and between
    resumptions. *)
Inductive reachable (world : nat → Answers) : State → Prop :=
| reach_init : reachable world init
| reach_call frame st :
    reachable world st → reachable world (callback world frame st)
| reach_resume o st :
    reachable world st → reachable world (resume o st).

(** Runs in which the player is never flagged killed. *)
Definition never_killed (world : nat → Answers) : Prop :=
  ∀ k, player_killed (world k) = false.

(** The frames the gate let through: those that met a clear flag. *)
Definition admitted (arrivals : list (Buffer * bool)) : list Buffer :=
  fst <$> filter (λ a, snd a = false) arrivals.

(** Projections of a trace and of an event list. *)
Definition writes (tr : list Effect) : list Buffer :=
  omap (λ e, match e with Write f => Some f | _ => None end) tr.
Definition decodes (tr : list Effect) : list Buffer :=
  omap (λ e, match e with Decode f => Some f | _ => None end) tr.
Definition logs (tr : list Effect) : list Report :=
  omap (λ e, match e with Log r => Some r | _ => None end) tr.
Definition chunks_of (evs : list Event) : list Buffer :=
  omap (λ ev, match ev with Data c => Some c | _ => None end) evs.

(** Inference calls (decode + predict) that have started and not yet
    reached their [finally]. *)
Definition in_flight (st : State) : nat := length (awaiting st).

(** The flag tells whether a call is in flight, and at most one is. *)
Definition flag_tracks_flight (st : State) : Prop :=
  (busy st = false ∧ awaiting st = [])
  ∨ (busy st = true ∧ ∃ probs, awaiting st = [probs]).

(** Reports are more than 500 ms apart, none is later than [lastLog],
    and each holds the one or two top entries of some distribution. *)
Definition spaced (r1 r2 : Report) : Prop := (time r2 - time r1 > 500)%Z.
Definition reports_throttled (st : State) : Prop :=
  StronglySorted spaced (logs (trace st))
  ∧ Forall (λ r, (time r ≤ lastLog st)%Z) (logs (trace st))
  ∧ Forall (λ r, ∃ probs, entries r = topK probs 2 ∧ entries r ≠ [])
           (logs (trace st)).

(** [frames] lie in [stream] one after the other, without overlap. *)
Inductive in_stream_order : list Buffer → Buffer → Prop :=
| in_order_nil stream : in_stream_order [] stream
| in_order_cons frame frames before rest :
    in_stream_order frames rest →
    in_stream_order (frame :: frames) (before ++ frame ++ rest).

End Pipeline.

(** Concrete inputs for the worked examples. *)
Module Samples.
Import Adapter Pipeline.

Definition frame_a : Buffer := [xff; xd8; x01; x02; xff; xd9].
Definition frame_b : Buffer := [xff; xd8; xff; xd9].

(** A one-pixel image, a classifier that scores five labels. *)
Definition decodes_fine : Answers :=
  {| player_killed := false;
     decode_result := Decoded 1 1 [x10; x20; x30; xff];
     predict_result := λ _, Some [0; 1; 0; 0; 0]%R |}.

Definition decode_fails : Answers :=
  {| player_killed := false;
     decode_result := DecodeThrows;
     predict_result := λ _, Some [0; 1; 0; 0; 0]%R |}.

Definition always (w : Answers) : nat → Answers := λ _, w.
End Samples.

(* ================================================================= *)
(** ** Rasters as lists of pixels, and the warm-up tensor             *)
(* ================================================================= *)

Module Raster.
Import Adapter.

(** One pixel of [decoded.data]: four bytes, [R, G, B, A]. *)
Record Pixel := { red : byte; green : byte; blue : byte; alpha : byte }.

Definition channel (q : Pixel) (c : nat) : byte :=
  match c with 0 => red q | 1 => green q | 2 => blue q | _ => alpha q end.

(** The bytes of a raster as [jpeg.decode] lays them out, and the same
    raster without its alpha bytes. *)
Definition rgba_bytes (pixels : list Pixel) : Buffer :=
  pixels ≫= λ q, [red q; green q; blue q; alpha q].
Definition rgb_bytes (pixels : list Pixel) : Buffer :=
  pixels ≫= λ q, [red q; green q; blue q].

(** [tf.zeros(shape)]. *)
Definition zeros (shp : list nat) : Tensor :=
  {| shape := shp; values := replicate (foldr Nat.mul 1 shp) 0%R |}.

(** Line 143: [tf.zeros([1, IMAGE_SIZE, IMAGE_SIZE, 3])], the tensor the
    model is warmed up with. *)
Definition warmup_input : Tensor := zeros [1; IMAGE_SIZE; IMAGE_SIZE; 3].

End Raster.

(* ================================================================= *)
(** ** More projections of a trace                                    *)
(* ================================================================= *)

Module Observations.
Import Adapter Pipeline.

(** The tensors the classifier was invoked on, and the values written
    to the flag, in program order. *)
Definition predicts (tr : list Effect) : list Tensor :=
  omap (λ e, match e with Predict input => Some input | _ => None end) tr.
Definition flag_writes (tr : list Effect) : list bool :=
  omap (λ e, match e with SetBusy b => Some b | _ => None end) tr.

(** Reports plus pending inferences, classifier calls, decoder calls and
    frames received, each bounded by the next. *)
Definition counts_nested (st : State) : Prop :=
  length (logs (trace st)) + in_flight st ≤ length (predicts (trace st))
  ∧ length (predicts (trace st)) ≤ length (decodes (trace st))
  ∧ length (decodes (trace st)) ≤ length (received st).

(** [l] is [next], [negb next], [next], ... *)
Fixpoint alternating (next : bool) (l : list bool) : bool :=
  match l with
  | [] => true
  | b :: l' => Bool.eqb b next && alternating (negb next) l'
  end.

(** The writes of the flag alternate, true first, and the flag holds the
    value written last. *)
Definition flag_disciplined (st : State) : Prop :=
  alternating true (flag_writes (trace st)) = true
  ∧ busy st = default false (last (flag_writes (trace st))).

End Observations.

(* ================================================================= *)
(** ** Model loader ([loadLayersModelFromFS], index.js 31-60)         *)
(* ================================================================= *)

Module Loader.

Section Load.
(** The JSON values the loader hands on untouched. *)
Variable Json : Type.

(** One entry of [modelJSON.weightsManifest], the parsed [model.json],
    and what [load] returns. *)
Record ManifestGroup := { paths : list string; weights : list Json }.
Record ModelJSON := {
  modelTopology : Json;
  format : Json;
  generatedBy : Json;
  convertedBy : Json;
  weightsManifest : list ManifestGroup;
}.
Record ModelArtifacts := {
  art_modelTopology : Json;
  art_format : Json;
  art_generatedBy : Json;
  art_convertedBy : Json;
  weightSpecs : list Json;
  weightData : Buffer;
}.

(** A Node [Buffer] is a view of an [ArrayBuffer]: the file's bytes
    are the [byteLength] bytes from [byteOffset] on.  Node cuts a small
    [Buffer] from a pool that many share, so the array buffer behind it
    can hold other data around the file's bytes, and two views can have
    the same array buffer.  [arraybuffer] is what the array buffer
    holds when the loop of lines 44-47 copies it; nothing is written
    between the last read and that loop. *)
Record FileBuffer := {
  arraybuffer : Buffer;
  byteOffset : nat;
  byteLength : nat;
}.

Definition contents (b : FileBuffer) : Buffer :=
  take (byteLength b) (drop (byteOffset b) (arraybuffer b)).

(** The view is all of its array buffer. *)
Definition spans_arraybuffer (b : FileBuffer) : Prop :=
  byteOffset b = 0 ∧ byteLength b = length (arraybuffer b).

(** [fs.readFileSync(path.join(modelDir, p))]: [readFileSync k p] is
    what the read number [k] returns for [p]; [None] when it raises. *)
Variable readFileSync : nat → string → option FileBuffer.

(** Line 38: [.buffer] is the array buffer behind the view, whole. *)
Definition read_weights (k : nat) (p : string) : option Buffer :=
  arraybuffer <$> readFileSync k p.

(** [arr.map(f)] for an [f] that can raise: the results in order, or
    the first exception. *)
Definition map_raising {A B} (f : nat → A → option B) (l : list A)
  : option (list B) :=
  mapM (λ r, r) (imap f l).

(** [arr.flatMap(f)]. *)
Definition flatMap {A B} (f : A → list B) (l : list A) : list B := l ≫= f.

(** [out.set(src, off)]: a [RangeError] ([None]) when [src] does not
    fit behind [off]. *)
Definition set_at (out src : Buffer) (off : nat) : option Buffer :=
  if decide (off + length src ≤ length out)
  then Some (take off out ++ src ++ drop (off + length src) out)
  else None.

(** The [for (const b of bufs)] loop of lines 44-47. *)
Fixpoint copy_all (bufs : list Buffer) (out : Buffer) (off : nat)
  : option Buffer :=
  match bufs with
  | [] => Some out
  | b :: bufs' =>
      out' ← set_at out b off;
      copy_all bufs' out' (off + length b)
  end.

(** Lines 41-47: [total], [new Uint8Array(total)] and the loop. *)
Definition join_weights (bufs : list Buffer) : option Buffer :=
  let total := foldl (λ s b, s + length b) 0 bufs in
  copy_all bufs (replicate total x00) 0.

(** The [load] handler, lines 34-57; [parsed] is the outcome of
    [JSON.parse(fs.readFileSync(modelJsonPath, "utf8"))]. *)
Definition load (parsed : option ModelJSON) : option ModelArtifacts :=
  modelJSON ← parsed;
  let weightPaths := flatMap paths (weightsManifest modelJSON) in
  bufs ← map_raising read_weights weightPaths;
  out ← join_weights bufs;
  Some {| art_modelTopology := modelTopology modelJSON;
          art_format := format modelJSON;
          art_generatedBy := generatedBy modelJSON;
          art_convertedBy := convertedBy modelJSON;
          weightSpecs := flatMap weights (weightsManifest modelJSON);
          weightData := out |}.
End Load.

Arguments Build_ManifestGroup {Json}.
Arguments paths {Json}.
Arguments weights {Json}.
Arguments Build_ModelJSON {Json}.
Arguments modelTopology {Json}.
Arguments format {Json}.
Arguments generatedBy {Json}.
Arguments convertedBy {Json}.
Arguments weightsManifest {Json}.
Arguments Build_ModelArtifacts {Json}.
Arguments art_modelTopology {Json}.
Arguments art_format {Json}.
Arguments art_generatedBy {Json}.
Arguments art_convertedBy {Json}.
Arguments weightSpecs {Json}.
Arguments weightData {Json}.
Arguments load {Json}.

(** A file read into an array buffer of its own, and one read into a
    pool behind [before] bytes of other data, with [after] bytes
    following. *)
Definition unpooled (file : Buffer) : FileBuffer :=
  {| arraybuffer := file; byteOffset := 0; byteLength := length file |}.
Definition pooled (before file after : Buffer) : FileBuffer :=
  {| arraybuffer := before ++ file ++ after;
     byteOffset := length before; byteLength := length file |}.

End Loader.

Module DemuxerExamples.
Import Demuxer.

Example one_frame :
  feed_chunks [[x00; xff; xd8; x01; x02; xff; xd9; x03]]
  = ([x03], [[xff; xd8; x01; x02; xff; xd9]]).
Proof. vm_compute. reflexivity. Qed.

Example split_marker :
  feed_chunks [[x00; xff]; [xd8; x01; xff]; [xd9; xff; xd8]]
  = ([xff; xd8], [[xff; xd8; x01; xff; xd9]]).
Proof. vm_compute. reflexivity. Qed.
End DemuxerExamples.

(* ================================================================= *)
(** ** Facts about the demuxer                                        *)
(* ================================================================= *)

Module DemuxerFacts.
Import Demuxer.

(** *** Marker search *)

Lemma starts_with_spec hay needle :
  starts_with hay needle = true ↔ ∃ rest, hay = needle ++ rest.
Proof.
  revert hay. induction needle as [|n needle IH]; intros hay; simpl.
  - split; [intros _; by exists hay | done].
  - destruct hay as [|h hay]; simpl.
    + split; [done | intros [rest Hr]; discriminate].
    + rewrite andb_true_iff, IH. split.
      * intros [Hnh [rest ->]]. apply byte_dec_bl in Hnh as ->. by exists rest.
      * intros [rest Hr]. injection Hr as -> ->. split; [|by exists rest].
        by apply byte_dec_lb.
Qed.

Lemma starts_with_length hay needle :
  starts_with hay needle = true → length needle ≤ length hay.
Proof.
  intros [rest ->]%starts_with_spec. rewrite length_app. lia.
Qed.

(** Bytes appended behind a window that is already long enough to hold
    the needle do not change the answer at its head. *)
Lemma starts_with_app hay needle y :
  length needle ≤ length hay →
  starts_with (hay ++ y) needle = starts_with hay needle.
Proof.
  revert hay. induction needle as [|n needle IH]; intros hay Hlen; [done|].
  destruct hay as [|h hay]; simpl in *; [lia|].
  rewrite IH by lia. done.
Qed.

Lemma scan_shift hay needle pos :
  scan hay needle pos = (λ i, pos + i) <$> scan hay needle 0.
Proof.
  revert pos. induction hay as [|h hay IH]; intros pos; simpl.
  - destruct needle; simpl; [f_equal; lia | done].
  - destruct (starts_with (h :: hay) needle); simpl; [f_equal; lia|].
    rewrite (IH (S pos)), (IH 1). destruct (scan hay needle 0); simpl; [|done].
    f_equal; lia.
Qed.

Lemma scan_Some hay needle pos i :
  scan hay needle pos = Some i →
  pos ≤ i ∧ (i - pos) + length needle ≤ length hay
  ∧ starts_with (drop (i - pos) hay) needle = true
  ∧ ∀ j, j < i - pos → starts_with (drop j hay) needle = false.
Proof.
  revert pos. induction hay as [|h hay IH]; intros pos; simpl.
  - destruct needle; simpl; [|done]. intros [= <-].
    replace (pos - pos) with 0 by lia. repeat split; try done; lia.
  - destruct (starts_with (h :: hay) needle) eqn:Hs.
    + intros [= <-]. replace (pos - pos) with 0 by lia.
      apply starts_with_length in Hs as Hl. simpl in Hl.
      repeat split; try done; try lia.
    + intros (Hle & Hlen & Hat & Hbefore)%IH.
      replace (i - pos) with (S (i - S pos)) by lia. simpl.
      repeat split; try done; try lia.
      intros [|j] Hj; simpl; [done|]. apply Hbefore. lia.
Qed.

Lemma scan_None hay needle pos :
  scan hay needle pos = None →
  ∀ j, starts_with (drop j hay) needle = false.
Proof.
  revert pos. induction hay as [|h hay IH]; intros pos; simpl.
  - destruct needle; simpl; [done|]. intros _ j. by rewrite drop_nil.
  - destruct (starts_with (h :: hay) needle) eqn:Hs; [done|].
    intros Hn [|j]; simpl; [done|]. by eapply IH.
Qed.

(** The search result is characterised by the first matching offset. *)
Lemma scan_first hay needle pos k :
  starts_with (drop k hay) needle = true →
  (∀ j, j < k → starts_with (drop j hay) needle = false) →
  k ≤ length hay →
  scan hay needle pos = Some (pos + k).
Proof.
  revert pos k. induction hay as [|h hay IH]; intros pos k Hat Hbefore Hk.
  - simpl in *. assert (k = 0) as -> by lia. simpl in Hat. rewrite Hat.
    f_equal; lia.
  - destruct k as [|k]; simpl in *.
    + rewrite Hat. f_equal; lia.
    + pose proof (Hbefore 0 ltac:(lia)) as H0. simpl in H0. rewrite H0.
      rewrite (IH (S pos) k); [f_equal; lia | done | | lia].
      intros j Hj. apply (Hbefore (S j)). lia.
Qed.

Lemma scan_app_Some hay needle pos i y :
  scan hay needle pos = Some i → scan (hay ++ y) needle pos = Some i.
Proof.
  intros (Hle & Hlen & Hat & Hbefore)%scan_Some.
  replace i with (pos + (i - pos)) by lia.
  apply scan_first.
  - rewrite drop_app_le by lia. rewrite starts_with_app; [done|].
    rewrite length_drop. lia.
  - intros j Hj. rewrite drop_app_le by lia.
    rewrite starts_with_app; [by apply Hbefore|]. rewrite length_drop. lia.
  - rewrite length_app. lia.
Qed.

Lemma indexOf_Some buf needle off i :
  needle ≠ [] →
  indexOf buf needle off = Some i →
  off ≤ i ∧ i + length needle ≤ length buf
  ∧ starts_with (drop i buf) needle = true
  ∧ ∀ j, off ≤ j < i → starts_with (drop j buf) needle = false.
Proof.
  intros Hne (Hle & Hlen & Hat & Hbefore)%scan_Some.
  rewrite length_drop in Hlen. rewrite drop_drop in Hat.
  assert (0 < length needle) by (destruct needle; [done | simpl; lia]).
  replace (off + (i - off)) with i in Hat by lia.
  repeat split; try done; try lia.
  intros j Hj. specialize (Hbefore (j - off)). rewrite drop_drop in Hbefore.
  replace (off + (j - off)) with j in Hbefore by lia. apply Hbefore. lia.
Qed.

Lemma indexOf_None buf needle off :
  indexOf buf needle off = None →
  ∀ j, off ≤ j → starts_with (drop j buf) needle = false.
Proof.
  intros Hn j Hj. pose proof (scan_None _ _ _ Hn (j - off)) as H.
  rewrite drop_drop in H. by replace (off + (j - off)) with j in H by lia.
Qed.

Lemma indexOf_first buf needle off i :
  off ≤ i → i ≤ length buf →
  starts_with (drop i buf) needle = true →
  (∀ j, off ≤ j < i → starts_with (drop j buf) needle = false) →
  indexOf buf needle off = Some i.
Proof.
  intros Hoff Hi Hat Hbefore. unfold indexOf.
  replace i with (off + (i - off)) at 1 by lia. apply scan_first.
  - rewrite drop_drop. by replace (off + (i - off)) with i by lia.
  - intros j Hj. rewrite drop_drop. apply Hbefore. lia.
  - rewrite length_drop. lia.
Qed.

Lemma indexOf_absent buf needle off :
  needle ≠ [] →
  (∀ j, off ≤ j → starts_with (drop j buf) needle = false) →
  indexOf buf needle off = None.
Proof.
  intros Hne Hno. destruct (indexOf buf needle off) as [i|] eqn:Hi; [|done].
  apply indexOf_Some in Hi as (Hle & _ & Hat & _); [|done].
  rewrite Hno in Hat; [done | lia].
Qed.

Lemma indexOf_app_Some buf needle off i y :
  needle ≠ [] →
  indexOf buf needle off = Some i →
  indexOf (buf ++ y) needle off = Some i.
Proof.
  intros Hne Hi. pose proof (indexOf_Some _ _ _ _ Hne Hi) as (Hle & Hlen & _).
  unfold indexOf in *. rewrite drop_app_le by lia. by apply scan_app_Some.
Qed.

Lemma SOI_nonempty : SOI ≠ [].
Proof. done. Qed.
Lemma EOI_nonempty : EOI ≠ [].
Proof. done. Qed.
#[local] Hint Resolve SOI_nonempty EOI_nonempty : core.


(** *** The loop, free of fuel *)

Section Loop.
Context {St : Type} (onFrame : Buffer → St → St).

(** Fuel above the window length is enough, and more changes nothing. *)
Lemma parse_loop_fuel fuel1 fuel2 buf st :
  length buf < fuel1 → length buf < fuel2 →
  is_Some (parse_loop onFrame fuel1 buf st)
  ∧ parse_loop onFrame fuel1 buf st = parse_loop onFrame fuel2 buf st.
Proof.
  revert fuel2 buf st.
  induction fuel1 as [|fuel1 IH]; intros fuel2 buf st H1 H2; [lia|].
  destruct fuel2 as [|fuel2]; [lia|]. simpl.
  destruct (indexOf buf SOI 0) as [soi|] eqn:Hsoi; [|by split].
  destruct (indexOf buf EOI (soi + 2)) as [eoi|] eqn:Heoi; [|by split].
  apply indexOf_Some in Heoi as (_ & Hlen & _); [|done]. simpl in Hlen.
  apply IH; unfold subarray_from; rewrite length_drop; lia.
Qed.

(** The call returns: the fuel is never exhausted. *)
Lemma parse_runs buf chunk st :
  parse_loop onFrame (S (length (buf ++ chunk))) (buf ++ chunk) st
  = Some (parse onFrame buf chunk st).
Proof.
  unfold parse, run.
  destruct (parse_loop_fuel (S (length (buf ++ chunk))) (S (length (buf ++ chunk)))
              (buf ++ chunk) st) as [[r Hr] _]; [lia..|].
  by rewrite Hr.
Qed.

Lemma run_unfold buf st :
  run onFrame buf st =
  match indexOf buf SOI 0 with
  | None => (truncate buf, st)
  | Some soi =>
      match indexOf buf EOI (soi + 2) with
      | None => (buf, st)
      | Some eoi =>
          run onFrame (subarray_from buf (eoi + 2))
              (onFrame (subarray buf soi (eoi + 2)) st)
      end
  end.
Proof.
  unfold run at 1. simpl.
  destruct (indexOf buf SOI 0) as [soi|] eqn:Hsoi; [|done].
  destruct (indexOf buf EOI (soi + 2)) as [eoi|] eqn:Heoi; [|done].
  apply indexOf_Some in Heoi as (_ & Hlen & _); [|done]. simpl in Hlen.
  unfold run.
  destruct (parse_loop_fuel (length buf)
              (S (length (subarray_from buf (eoi + 2))))
              (subarray_from buf (eoi + 2))
              (onFrame (subarray buf soi (eoi + 2)) st)) as [[r Hr] Heq];
    [unfold subarray_from; rewrite length_drop; lia | lia |].
  rewrite <- Heq, Hr. done.
Qed.
End Loop.

(** Induction along the iterations of the loop. *)
Lemma window_ind (P : Buffer → Prop) :
  (∀ buf, indexOf buf SOI 0 = None → P buf) →
  (∀ buf soi, indexOf buf SOI 0 = Some soi →
              indexOf buf EOI (soi + 2) = None → P buf) →
  (∀ buf soi eoi, indexOf buf SOI 0 = Some soi →
                  indexOf buf EOI (soi + 2) = Some eoi →
                  P (subarray_from buf (eoi + 2)) → P buf) →
  ∀ buf, P buf.
Proof.
  intros Hnone Hopen Hframe buf.
  remember (length buf) as n eqn:Hn. revert buf Hn.
  induction n as [n IH] using lt_wf_ind. intros buf ->.
  destruct (indexOf buf SOI 0) as [soi|] eqn:Hsoi; [|by apply Hnone].
  destruct (indexOf buf EOI (soi + 2)) as [eoi|] eqn:Heoi;
    [|by eapply Hopen].
  eapply Hframe; [done..|].
  apply indexOf_Some in Heoi as (_ & Hlen & _); [|done]. simpl in Hlen.
  eapply IH; [|done]. unfold subarray_from. rewrite length_drop. lia.
Qed.

Lemma run_record buf seen :
  run record_frame buf seen = (remainder buf, seen ++ frames_in buf).
Proof.
  revert seen. induction buf as [buf Hsoi|buf soi Hsoi Heoi|buf soi eoi Hsoi Heoi IH]
    using window_ind; intros seen; unfold remainder, frames_in;
    rewrite (run_unfold _ buf seen), (run_unfold _ buf []), Hsoi; simpl.
  - by rewrite app_nil_r.
  - by rewrite Heoi, app_nil_r.
  - rewrite Heoi. rewrite !IH. simpl. unfold record_frame.
    by rewrite <- app_assoc.
Qed.

Lemma frames_in_unfold buf :
  frames_in buf =
  match indexOf buf SOI 0 with
  | None => []
  | Some soi =>
      match indexOf buf EOI (soi + 2) with
      | None => []
      | Some eoi =>
          subarray buf soi (eoi + 2) :: frames_in (subarray_from buf (eoi + 2))
      end
  end.
Proof.
  unfold frames_in at 1. rewrite run_unfold.
  destruct (indexOf buf SOI 0) as [soi|]; [|done].
  destruct (indexOf buf EOI (soi + 2)) as [eoi|]; [|done].
  by rewrite run_record.
Qed.

Lemma remainder_unfold buf :
  remainder buf =
  match indexOf buf SOI 0 with
  | None => truncate buf
  | Some soi =>
      match indexOf buf EOI (soi + 2) with
      | None => buf
      | Some eoi => remainder (subarray_from buf (eoi + 2))
      end
  end.
Proof.
  unfold remainder at 1. rewrite run_unfold.
  destruct (indexOf buf SOI 0) as [soi|]; [|done].
  destruct (indexOf buf EOI (soi + 2)) as [eoi|]; [|done].
  by rewrite run_record.
Qed.

(** Any callback sees exactly the recorded frames, in the same order. *)
Lemma run_callback {St} (onFrame : Buffer → St → St) buf st :
  run onFrame buf st
  = (remainder buf, foldl (λ s frame, onFrame frame s) st (frames_in buf)).
Proof.
  revert st. induction buf as [buf Hsoi|buf soi Hsoi Heoi|buf soi eoi Hsoi Heoi IH]
    using window_ind; intros st;
    rewrite run_unfold, remainder_unfold, frames_in_unfold, Hsoi; [done|..];
    rewrite Heoi; [done|].
  by rewrite IH.
Qed.

(** *** What the loop can see of a window *)

Lemma indexOf_drop buf needle k off :
  indexOf buf needle (k + off) = (λ i, k + i) <$> indexOf (drop k buf) needle off.
Proof.
  unfold indexOf. rewrite drop_drop.
  rewrite (scan_shift _ _ (k + off)), (scan_shift _ _ off).
  destruct (scan (drop (k + off) buf) needle 0); simpl; [f_equal; lia | done].
Qed.

Lemma indexOf_drop_None buf needle k :
  needle ≠ [] →
  indexOf buf needle 0 = None → indexOf (drop k buf) needle 0 = None.
Proof.
  intros Hne Hn. apply indexOf_absent; [done|]. intros j _. rewrite drop_drop.
  eapply indexOf_None; [done | lia].
Qed.

(** A prefix in which no start marker begins is invisible to the search. *)
Lemma indexOf_skip p z :
  (∀ j, j < length p → starts_with (drop j (p ++ z)) SOI = false) →
  indexOf (p ++ z) SOI 0 = (λ i, length p + i) <$> indexOf z SOI 0.
Proof.
  intros Hp. destruct (indexOf z SOI 0) as [i|] eqn:Hz; simpl.
  - apply indexOf_Some in Hz as (_ & Hlen & Hat & Hbefore); [|done].
    apply indexOf_first; [lia | rewrite length_app; lia | |].
    + by rewrite drop_app_add.
    + intros j [_ Hj]. destruct (decide (j < length p)) as [Hlt|Hge].
      * by apply Hp.
      * rewrite drop_app_ge by lia. apply Hbefore. lia.
  - apply indexOf_absent; [done|]. intros j _.
    destruct (decide (j < length p)) as [Hlt|Hge]; [by apply Hp|].
    rewrite drop_app_ge by lia. eapply indexOf_None; [done | lia].
Qed.

Lemma visible_skip p z :
  (∀ j, j < length p → starts_with (drop j (p ++ z)) SOI = false) →
  z ≠ [] →
  visible (p ++ z) = visible z.
Proof.
  intros Hp Hz. unfold visible. rewrite indexOf_skip by done.
  destruct (indexOf z SOI 0) as [i|]; simpl.
  - by rewrite drop_app_add.
  - rewrite last_app. destruct (last z) eqn:Hl; [done|].
    by apply last_None in Hl.
Qed.

Lemma visible_truncate buf :
  indexOf buf SOI 0 = None → visible (truncate buf) = visible buf.
Proof.
  intros Hn. unfold truncate.
  destruct (Z.gtb_spec (Z.of_nat (length buf)) (1024 * 1024)) as [Hbig|_];
    [|done].
  unfold subarray_from. set (k := length buf - 1024).
  rewrite <- (take_drop k buf) at 2. symmetry. apply visible_skip.
  - intros j _. rewrite take_drop. eapply indexOf_None; [done | lia].
  - intros Hnil%(f_equal length). rewrite length_drop in Hnil.
    simpl in Hnil. lia.
Qed.

Lemma visible_app buf y : visible (buf ++ y) = visible (visible buf ++ y).
Proof.
  unfold visible at 3.
  destruct (indexOf buf SOI 0) as [soi|] eqn:Hsoi.
  - pose proof (indexOf_Some _ _ _ _ SOI_nonempty Hsoi) as (_ & Hlen & Hat & _).
    unfold visible.
    rewrite (indexOf_app_Some _ _ _ _ y SOI_nonempty Hsoi).
    rewrite drop_app_le by lia.
    assert (indexOf (drop soi buf ++ y) SOI 0 = Some 0) as ->; [|done].
    apply indexOf_first; [lia.. | | intros j; lia].
    rewrite drop_0, starts_with_app; [done|]. by apply starts_with_length.
  - destruct (last buf) as [c|] eqn:Hl.
    + apply last_Some in Hl as [buf' ->].
      assert (∀ j, j < length buf' →
                   starts_with (drop j ((buf' ++ [c]) ++ y)) SOI = false) as Hp.
      { intros j Hj. rewrite drop_app_le by (rewrite length_app; simpl; lia).
        rewrite starts_with_app.
        - eapply indexOf_None; [done | lia].
        - rewrite length_drop, length_app. simpl. lia. }
      destruct (Byte.eqb c xff) eqn:Hc.
      * apply byte_dec_bl in Hc as ->.
        rewrite <- app_assoc in *. apply visible_skip; done.
      * destruct y as [|y0 y]; simpl.
        { rewrite app_nil_r. unfold visible. rewrite Hsoi, last_snoc, Hc. done. }
        apply visible_skip; [|done].
        intros j Hj. rewrite length_app in Hj. simpl in Hj.
        destruct (decide (j < length buf')) as [Hlt|Hge]; [by apply Hp|].
        assert (j = length buf') as -> by lia.
        rewrite <- app_assoc, drop_app_length. simpl.
        destruct (Byte.eqb xff c) eqn:Hc'; [|done].
        apply byte_dec_bl in Hc' as <-. done.
    + apply last_None in Hl as ->. done.
Qed.

Lemma frames_in_no_start buf : indexOf buf SOI 0 = None → frames_in buf = [].
Proof. intros Hn. by rewrite frames_in_unfold, Hn. Qed.

(** The loop extracts the same frames from a window as from the part of
    it that is visible. *)
Lemma frames_in_visible buf : frames_in (visible buf) = frames_in buf.
Proof.
  unfold visible. destruct (indexOf buf SOI 0) as [soi|] eqn:Hsoi.
  - pose proof (indexOf_Some _ _ _ _ SOI_nonempty Hsoi) as (_ & Hlen & Hat & _).
    rewrite (frames_in_unfold buf), (frames_in_unfold (drop soi buf)), Hsoi.
    assert (indexOf (drop soi buf) SOI 0 = Some 0) as ->.
    { apply indexOf_first; [lia.. | done | intros j; lia]. }
    rewrite (indexOf_drop buf EOI soi 2). simpl.
    destruct (indexOf (drop soi buf) EOI 2) as [e|]; simpl; [|done].
    unfold subarray, subarray_from. rewrite !drop_drop.
    replace (soi + e + 2 - soi) with (e + 2 - 0) by lia.
    replace (soi + e + 2) with (soi + (e + 2)) by lia.
    by replace (soi + 0) with soi by lia.
  - rewrite (frames_in_no_start buf Hsoi).
    destruct (last buf) as [c|]; [destruct (Byte.eqb c xff)|]; done.
Qed.

(** *** Feeding in pieces *)

Lemma truncate_no_start buf :
  indexOf buf SOI 0 = None → indexOf (truncate buf) SOI 0 = None.
Proof.
  intros Hn. unfold truncate, subarray_from.
  destruct (Z.of_nat (length buf) >? 1024 * 1024)%Z; [|done].
  by apply indexOf_drop_None.
Qed.

(** What a call leaves in the window yields no frame until more bytes
    arrive. *)
Lemma frames_in_remainder buf : frames_in (remainder buf) = [].
Proof.
  induction buf as [buf Hsoi|buf soi Hsoi Heoi|buf soi eoi Hsoi Heoi IH]
    using window_ind; rewrite remainder_unfold, Hsoi.
  - apply frames_in_no_start, truncate_no_start, Hsoi.
  - by rewrite Heoi, frames_in_unfold, Hsoi, Heoi.
  - by rewrite Heoi.
Qed.

(** Bytes that arrive later are parsed as if they had been there from
    the start. *)
Lemma frames_in_app buf y :
  frames_in (buf ++ y) = frames_in buf ++ frames_in (remainder buf ++ y).
Proof.
  induction buf as [buf Hsoi|buf soi Hsoi Heoi|buf soi eoi Hsoi Heoi IH]
    using window_ind;
    rewrite (frames_in_unfold buf), (remainder_unfold buf), Hsoi.
  - simpl. rewrite <- (frames_in_visible (buf ++ y)).
    rewrite <- (frames_in_visible (truncate buf ++ y)).
    by rewrite (visible_app buf), (visible_app (truncate buf)), visible_truncate.
  - by rewrite Heoi.
  - rewrite Heoi.
    pose proof (indexOf_Some _ _ _ _ EOI_nonempty Heoi) as (Hle & Hlen & _).
    simpl in Hlen.
    rewrite (frames_in_unfold (buf ++ y)).
    rewrite (indexOf_app_Some _ _ _ _ y SOI_nonempty Hsoi).
    rewrite (indexOf_app_Some _ _ _ _ y EOI_nonempty Heoi).
    unfold subarray, subarray_from in *.
    rewrite !drop_app_le by lia.
    rewrite take_app_le by (rewrite length_drop; lia).
    by rewrite IH.
Qed.

Lemma parse_all_record buf chunks seen :
  frames_in buf = [] →
  snd (parse_all record_frame buf chunks seen)
  = seen ++ frames_in (buf ++ concat chunks).
Proof.
  revert buf seen. induction chunks as [|chunk chunks IH]; intros buf seen Hbuf.
  - simpl. by rewrite !app_nil_r, Hbuf, app_nil_r.
  - simpl. unfold parse. rewrite run_record.
    rewrite IH by apply frames_in_remainder.
    by rewrite <- app_assoc, <- frames_in_app, <- app_assoc.
Qed.

Lemma emitted_frames_in chunks : emitted chunks = frames_in (concat chunks).
Proof. unfold emitted, feed_chunks. by rewrite parse_all_record. Qed.

(** C2 (chunk-boundary independence): however a byte sequence is split
    into chunks, feeding the chunks one at a time to a fresh demuxer
    emits the same frames, in the same order, as feeding the whole
    sequence as one chunk. *)
Theorem chunk_boundary_independence (chunks : list Buffer) :
  emitted chunks = emitted [concat chunks].
Proof.
  rewrite !emitted_frames_in. simpl. by rewrite app_nil_r.
Qed.

(** *** Back-to-back frames *)

Lemma frames_in_cons frame rest :
  delimited frame → closes_first frame →
  frames_in (frame ++ rest) = frame :: frames_in rest.
Proof.
  intros [payload Hf] Hclose.
  assert (4 ≤ length frame) as Hlen.
  { rewrite Hf, !length_app. simpl. lia. }
  assert (indexOf frame SOI 0 = Some 0) as Hsoi.
  { apply indexOf_first; [lia.. | | intros j; lia].
    rewrite drop_0. apply starts_with_spec. by eexists. }
  rewrite frames_in_unfold.
  rewrite (indexOf_app_Some _ _ _ _ rest SOI_nonempty Hsoi).
  change (0 + 2) with 2.
  rewrite (indexOf_app_Some _ _ _ _ rest EOI_nonempty Hclose).
  unfold subarray, subarray_from. rewrite drop_0.
  replace (length frame - 2 + 2 - 0) with (length frame) by lia.
  replace (length frame - 2 + 2) with (length frame) by lia.
  by rewrite take_app_length, drop_app_length.
Qed.

Lemma frames_in_concat frames :
  Forall delimited frames → Forall closes_first frames →
  frames_in (concat frames) = frames.
Proof.
  induction 1 as [|frame frames Hd _ IH]; intros Hc; [done|].
  apply Forall_cons in Hc as [Hc Hcs]. simpl.
  rewrite frames_in_cons by done. by rewrite IH.
Qed.

(** C3, as stated, fails: one frame delimited by both markers whose
    payload holds another end marker (an embedded image, say) is cut at
    the inner marker, so the emitted frame is not the source span. *)
Lemma delimited_frames_not_always_emitted :
  let frame := SOI ++ [xff; xd8; x2a; xff; xd9; x2a] ++ EOI in
  delimited frame
  ∧ emitted [concat [frame]] = [[xff; xd8; xff; xd8; x2a; xff; xd9]]
  ∧ emitted [concat [frame]] ≠ [frame].
Proof.
  split; [by eexists|]. split; [by vm_compute | by vm_compute].
Qed.

(** C3 (amended): a stream of N back-to-back frames, each delimited by
    the two markers and holding no other end marker before its closing
    one, delivered in any chunking, makes the demuxer emit exactly those
    N frames, byte for byte and in stream order. *)
Theorem back_to_back_frames_emitted (frames chunks : list Buffer) :
  Forall delimited frames →
  Forall closes_first frames →
  concat chunks = concat frames →
  emitted chunks = frames ∧ length (emitted chunks) = length frames.
Proof.
  intros Hd Hc Hstream.
  assert (emitted chunks = frames) as ->; [|done].
  rewrite emitted_frames_in, Hstream. by apply frames_in_concat.
Qed.

Lemma back_to_back_frames_emitted_witness :
  let a := [xff; xd8; x01; x02; xff; xd9] in
  let b := [xff; xd8; xff; xd9] in
  let chunks := [[xff; xd8; x01]; [x02; xff]; [xd9; xff; xd8; xff]; [xd9]] in
  emitted chunks = [a; b] ∧ length (emitted chunks) = 2.
Proof.
  apply (back_to_back_frames_emitted
           [[xff; xd8; x01; x02; xff; xd9]; [xff; xd8; xff; xd9]]).
  - repeat constructor; [by exists [x01; x02] | by exists []].
  - repeat constructor; reflexivity.
  - reflexivity.
Defined.

(** *** Size of the window *)

Lemma truncate_length buf :
  (Z.of_nat (length (truncate buf)) ≤ 1024 * 1024)%Z.
Proof.
  unfold truncate, subarray_from.
  destruct (Z.gtb_spec (Z.of_nat (length buf)) (1024 * 1024)) as [Hbig|Hsmall];
    [|done].
  rewrite length_drop. lia.
Qed.

Lemma remainder_start_or_small buf :
  indexOf (remainder buf) SOI 0 = None →
  (Z.of_nat (length (remainder buf)) ≤ 1024 * 1024)%Z.
Proof.
  induction buf as [buf Hsoi|buf soi Hsoi Heoi|buf soi eoi Hsoi Heoi IH]
    using window_ind; rewrite remainder_unfold, Hsoi.
  - intros _. apply truncate_length.
  - rewrite Heoi, Hsoi. done.
  - by rewrite Heoi.
Qed.

Lemma remainder_suffix buf : remainder buf `suffix_of` buf.
Proof.
  induction buf as [buf Hsoi|buf soi Hsoi Heoi|buf soi eoi Hsoi Heoi IH]
    using window_ind; rewrite remainder_unfold, Hsoi.
  - unfold truncate, subarray_from.
    destruct (Z.of_nat (length buf) >? 1024 * 1024)%Z; [apply suffix_drop | done].
  - by rewrite Heoi.
  - rewrite Heoi. etrans; [apply IH | apply suffix_drop].
Qed.

Lemma parse_all_snoc buf chunks chunk seen :
  fst (parse_all record_frame buf (chunks ++ [chunk]) seen)
  = remainder (fst (parse_all record_frame buf chunks seen) ++ chunk).
Proof.
  revert buf seen. induction chunks as [|c chunks IH]; intros buf seen; simpl;
    unfold parse; rewrite run_record; [done | apply IH].
Qed.

Lemma window_snoc chunks chunk :
  window (chunks ++ [chunk]) = remainder (window chunks ++ chunk).
Proof. apply parse_all_snoc. Qed.

Lemma window_nil : window [] = [].
Proof. done. Qed.

Lemma window_suffix chunks : window chunks `suffix_of` concat chunks.
Proof.
  induction chunks as [|chunk chunks IH] using rev_ind; [done|].
  rewrite window_snoc, concat_app. simpl. rewrite app_nil_r.
  etrans; [apply remainder_suffix|]. by apply suffix_app.
Qed.

Lemma suffix_no_start (buf buf' : Buffer) :
  buf' `suffix_of` buf → indexOf buf SOI 0 = None → indexOf buf' SOI 0 = None.
Proof.
  intros [p ->] Hn. rewrite <- (drop_app_length p buf').
  by apply indexOf_drop_None.
Qed.

Lemma markerless_prefix_le buf : markerless_prefix buf ≤ length buf.
Proof.
  unfold markerless_prefix. destruct (indexOf buf SOI 0) as [soi|] eqn:Hsoi; [|done].
  apply indexOf_Some in Hsoi as (_ & Hlen & _); [lia | done].
Qed.

(** A marker found in [buf ++ y] that ends inside [buf] is found in
    [buf] alone. *)
Lemma indexOf_app_inv buf y needle off i :
  needle ≠ [] →
  indexOf (buf ++ y) needle off = Some i →
  i + length needle ≤ length buf →
  indexOf buf needle off = Some i.
Proof.
  intros Hne (Hle & _ & Hat & Hbefore)%indexOf_Some Hlen; [|done].
  apply indexOf_first; [lia.. | |].
  - rewrite drop_app_le in Hat by lia.
    rewrite starts_with_app in Hat; [done | rewrite length_drop; lia].
  - intros j Hj. specialize (Hbefore j Hj).
    rewrite drop_app_le in Hbefore by lia.
    rewrite starts_with_app in Hbefore; [done | rewrite length_drop; lia].
Qed.

(** One more chunk of at most [M] bytes keeps the bytes before the first
    start marker within the threshold plus [M]. *)
Lemma markerless_prefix_step (M : nat) buf chunk :
  frames_in buf = [] →
  (indexOf buf SOI 0 = None → (Z.of_nat (length buf) ≤ 1024 * 1024)%Z) →
  (Z.of_nat (markerless_prefix buf) ≤ 1024 * 1024 + Z.of_nat M)%Z →
  length chunk ≤ M →
  (Z.of_nat (markerless_prefix (remainder (buf ++ chunk)))
   ≤ 1024 * 1024 + Z.of_nat M)%Z.
Proof.
  intros Hstable Hsmall Hprefix Hchunk. rewrite remainder_unfold.
  destruct (indexOf (buf ++ chunk) SOI 0) as [soi|] eqn:Hsoi.
  - destruct (indexOf (buf ++ chunk) EOI (soi + 2)) as [eoi|] eqn:Heoi.
    + pose proof (indexOf_Some _ _ _ _ SOI_nonempty Hsoi) as (_ & Hslen & _).
      pose proof (indexOf_Some _ _ _ _ EOI_nonempty Heoi) as (Hle & Helen & _).
      simpl in Hslen, Helen. rewrite length_app in Helen.
      destruct (decide (eoi + 2 ≤ length buf)) as [Hin|Hout].
      * exfalso.
        apply indexOf_app_inv in Heoi; [|done | simpl; lia].
        apply indexOf_app_inv in Hsoi; [|done | simpl; lia].
        by rewrite frames_in_unfold, Hsoi, Heoi in Hstable.
      * pose proof (markerless_prefix_le
                      (remainder (subarray_from (buf ++ chunk) (eoi + 2)))) as H1.
        pose proof (suffix_length _ _
                      (remainder_suffix (subarray_from (buf ++ chunk) (eoi + 2)))) as H2.
        unfold subarray_from in *. rewrite length_drop, length_app in H2. lia.
    + unfold markerless_prefix at 1. rewrite Hsoi.
      destruct (indexOf buf SOI 0) as [soi0|] eqn:Hsoi0.
      * rewrite (indexOf_app_Some _ _ _ _ chunk SOI_nonempty Hsoi0) in Hsoi.
        injection Hsoi as <-. unfold markerless_prefix in Hprefix.
        by rewrite Hsoi0 in Hprefix.
      * apply indexOf_Some in Hsoi as (_ & Hslen & _); [|done].
        rewrite length_app in Hslen. simpl in Hslen.
        specialize (Hsmall eq_refl). lia.
  - pose proof (markerless_prefix_le (truncate (buf ++ chunk))).
    pose proof (truncate_length (buf ++ chunk)). lia.
Qed.

Lemma window_invariant (M : nat) chunks :
  Forall (λ chunk, length chunk ≤ M) chunks →
  frames_in (window chunks) = []
  ∧ (indexOf (window chunks) SOI 0 = None →
     (Z.of_nat (length (window chunks)) ≤ 1024 * 1024)%Z)
  ∧ (Z.of_nat (markerless_prefix (window chunks)) ≤ 1024 * 1024 + Z.of_nat M)%Z.
Proof.
  induction chunks as [|chunk chunks IH] using rev_ind; intros Hall.
  - rewrite window_nil. split; [done|]. split; [simpl; lia|].
    unfold markerless_prefix. simpl. lia.
  - apply Forall_app in Hall as [Hall Hchunk].
    apply Forall_cons in Hchunk as [Hchunk _].
    destruct (IH Hall) as (Hstable & Hsmall & Hprefix).
    rewrite window_snoc. split; [apply frames_in_remainder|].
    split; [apply remainder_start_or_small|].
    by apply markerless_prefix_step.
Qed.

(** Noise followed by a start marker, in one chunk. *)
Lemma noise_then_start n :
  let chunk := replicate n x00 ++ SOI in
  window [chunk] = chunk ∧ markerless_prefix (window [chunk]) = n.
Proof.
  intros chunk.
  assert (indexOf chunk SOI 0 = Some n) as Hsoi.
  { unfold chunk. rewrite indexOf_skip.
    - rewrite length_replicate. change (indexOf SOI SOI 0) with (Some 0).
      simpl. f_equal. lia.
    - intros j Hj. rewrite length_replicate in Hj.
      rewrite drop_app_le by (rewrite length_replicate; lia).
      rewrite drop_replicate.
      destruct (n - j) as [|k] eqn:Hk; [lia | done]. }
  assert (window [chunk] = chunk) as ->.
  { change [chunk] with ([] ++ [chunk]).
    rewrite (window_snoc [] chunk), window_nil, app_nil_l.
    rewrite remainder_unfold, Hsoi.
    rewrite indexOf_absent; [done..|].
    intros j Hj. rewrite drop_ge; [done|].
    unfold chunk. rewrite length_app, length_replicate. simpl. lia. }
  split; [done|]. unfold markerless_prefix. by rewrite Hsoi.
Qed.

(** C4, as stated, fails: after one call fed with noise longer than the
    threshold and a start marker behind it, the window still holds all
    of the noise before the marker. *)
Lemma markerless_prefix_exceeds_threshold :
  (Z.of_nat (markerless_prefix
               (window [replicate (1024 * 1024 + 1) x00 ++ SOI]))
   > 1024 * 1024)%Z.
Proof.
  destruct (noise_then_start (1024 * 1024 + 1)) as [_ Hp].
  rewrite Hp. lia.
Qed.

(** C4 (amended): after every feed call, a window that holds no start
    marker is at most one threshold (1024 * 1024 bytes) long, so a
    stream without start markers never grows it beyond the threshold;
    a window that holds a start marker keeps the bytes before it, and
    when no chunk is longer than [M] these are at most the threshold
    plus [M]. *)
Theorem window_bounded (M : nat) (chunks : list Buffer) :
  Forall (λ chunk, length chunk ≤ M) chunks →
  (indexOf (window chunks) SOI 0 = None →
     (Z.of_nat (length (window chunks)) ≤ 1024 * 1024)%Z)
  ∧ (indexOf (concat chunks) SOI 0 = None →
     (Z.of_nat (length (window chunks)) ≤ 1024 * 1024)%Z)
  ∧ (Z.of_nat (markerless_prefix (window chunks)) ≤ 1024 * 1024 + Z.of_nat M)%Z.
Proof.
  intros Hall. destruct (window_invariant M chunks Hall) as (_ & Hsmall & Hprefix).
  split; [done|]. split; [|done].
  intros Hnoise. apply Hsmall.
  eapply suffix_no_start; [apply window_suffix | done].
Qed.

Lemma window_bounded_witness :
  let chunks := [[x00; x01; xff]; [x02; xff; xd8; x03]; [x04]] in
  (indexOf (window chunks) SOI 0 = None →
     (Z.of_nat (length (window chunks)) ≤ 1024 * 1024)%Z)
  ∧ (indexOf (concat chunks) SOI 0 = None →
     (Z.of_nat (length (window chunks)) ≤ 1024 * 1024)%Z)
  ∧ (Z.of_nat (markerless_prefix (window chunks)) ≤ 1024 * 1024 + Z.of_nat 4)%Z.
Proof.
  apply (window_bounded 4). repeat constructor; simpl; lia.
Defined.

End DemuxerFacts.

(* ================================================================= *)
(** ** Facts about the classifier adapter and the ranking             *)
(* ================================================================= *)

Module AdapterFacts.
Import Adapter.

(** *** RGBA to RGB *)

Lemma rgb_loop_length fuel rgba i j rgb :
  length (rgb_loop fuel rgba i j rgb) = length rgb.
Proof.
  revert i j rgb. induction fuel as [|fuel IH]; intros i j rgb; simpl; [done|].
  destruct (i <? length rgba); [|done].
  rewrite IH. unfold u8_set. by rewrite !length_insert.
Qed.

Lemma rgba_to_rgb_length rgba : length (rgba_to_rgb rgba) = WIDTH * HEIGHT * 3.
Proof. unfold rgba_to_rgb. by rewrite rgb_loop_length, length_replicate. Qed.

(** The loop never writes below its output index. *)
Lemma rgb_loop_below fuel rgba i j rgb q :
  q < j → rgb_loop fuel rgba i j rgb !! q = rgb !! q.
Proof.
  revert i j rgb. induction fuel as [|fuel IH]; intros i j rgb Hq; simpl; [done|].
  destruct (i <? length rgba); [|done].
  rewrite IH by lia. unfold u8_set.
  rewrite !list_lookup_insert_ne by lia. done.
Qed.

(** Pixel [k], channel [c], once the loop has run from pixel [k0] on. *)
Lemma rgb_loop_pixel fuel rgba k0 rgb k c :
  length rgba ≤ 4 * (fuel + k0) → k0 ≤ k → c < 3 →
  rgb_loop fuel rgba (4 * k0) (3 * k0) rgb !! (3 * k + c)
  = if decide (4 * k < length rgba ∧ 3 * k + c < length rgb)
    then Some (u8_get rgba (4 * k + c))
    else rgb !! (3 * k + c).
Proof.
  revert k0 rgb. induction fuel as [|fuel IH]; intros k0 rgb Hfuel Hk Hc.
  - simpl. case_decide; [lia | done].
  - cbn [rgb_loop]. destruct (Nat.ltb_spec (4 * k0) (length rgba)) as [Hin|Hout].
    + replace (4 * k0 + 4) with (4 * S k0) by lia.
      replace (3 * k0 + 3) with (3 * S k0) by lia.
      destruct (decide (k = k0)) as [->|Hne].
      * rewrite rgb_loop_below by lia. unfold u8_set.
        rewrite !list_lookup_insert, !length_insert.
        repeat case_decide; try lia; try done;
          repeat match goal with
                 | H : _ = 3 * k0 + c ∧ _ |- _ => destruct H as [H _]
                 end;
          f_equal; f_equal; lia.
      * rewrite IH by lia. unfold u8_set. rewrite !length_insert.
        rewrite !list_lookup_insert_ne by lia. done.
    + case_decide; [lia | done].
Qed.

(** Every byte of the destination array, by pixel and channel. *)
Lemma rgba_to_rgb_pixel rgba k c :
  c < 3 →
  rgba_to_rgb rgba !! (3 * k + c)
  = if decide (3 * k + c < WIDTH * HEIGHT * 3)
    then Some (if decide (4 * k < length rgba)
               then u8_get rgba (4 * k + c) else x00)
    else None.
Proof.
  intros Hc. unfold rgba_to_rgb.
  change (rgb_loop (length rgba) rgba 0 0)
    with (rgb_loop (length rgba) rgba (4 * 0) (3 * 0)).
  rewrite rgb_loop_pixel by lia. rewrite length_replicate.
  repeat case_decide; try lia.
  - done.
  - rewrite lookup_replicate_2 by lia. done.
  - apply lookup_replicate_None. lia.
Qed.

(** The loop has ended by the time the fuel [rgba_to_rgb] gives it is
    used up: more fuel changes nothing. *)
Lemma rgb_loop_enough_fuel fuel rgba rgb :
  length rgba ≤ fuel →
  rgb_loop fuel rgba 0 0 rgb = rgb_loop (length rgba) rgba 0 0 rgb.
Proof.
  intros Hfuel. apply list_eq. intros q.
  rewrite (Nat.div_mod_eq q 3).
  pose proof (Nat.mod_upper_bound q 3 ltac:(lia)) as Hc.
  generalize dependent (q mod 3). generalize (q / 3). clear q.
  intros k c Hc.
  change (rgb_loop fuel rgba 0 0) with (rgb_loop fuel rgba (4 * 0) (3 * 0)).
  change (rgb_loop (length rgba) rgba 0 0)
    with (rgb_loop (length rgba) rgba (4 * 0) (3 * 0)).
  by rewrite !rgb_loop_pixel by lia.
Qed.

Example rgba_to_rgb_two_pixels :
  take 7 (rgba_to_rgb [x01; x02; x03; xff; x04; x05; x06; xff])
  = [x01; x02; x03; x04; x05; x06; x00].
Proof. vm_compute. reflexivity. Qed.

Lemma u8_get_take (a : Buffer) n i : i < n → u8_get (take n a) i = u8_get a i.
Proof. intros Hi. unfold u8_get. by rewrite lookup_take_lt. Qed.

(** Only the first [WIDTH * HEIGHT] pixels of the decoded data count. *)
Lemma rgba_to_rgb_take rgba :
  rgba_to_rgb (take (4 * (WIDTH * HEIGHT)) rgba) = rgba_to_rgb rgba.
Proof.
  apply list_eq. intros q.
  rewrite (Nat.div_mod_eq q 3).
  pose proof (Nat.mod_upper_bound q 3 ltac:(lia)) as Hc.
  generalize dependent (q mod 3). generalize (q / 3). clear q.
  intros k c Hc. rewrite !rgba_to_rgb_pixel by done.
  case_decide as Hq; [|done]. f_equal.
  rewrite length_take.
  repeat case_decide; try lia; try done.
  apply u8_get_take. lia.
Qed.

(** *** The input tensor *)

Lemma make_input_Some rgba :
  make_input rgba
  = Some {| shape := [1; HEIGHT; WIDTH; 3];
            values := (λ b, byte_value b / 255)%R <$> rgba_to_rgb rgba |}.
Proof.
  unfold make_input, tensor3d.
  rewrite decide_True.
  - simpl. unfold expandDims0, div, toFloat. simpl.
    by rewrite <- list_fmap_compose.
  - rewrite rgba_to_rgb_length. cbn [foldr]. lia.
Qed.



(** *** Softmax *)









(** *** Ranking *)

Lemma insert_desc_perm x l : insert_desc x l ≡ₚ x :: l.
Proof.
  induction l as [|y l IH]; simpl; [done|].
  destruct (Rle_dec (p y) (p x)); [done|].
  rewrite IH. apply Permutation_swap.
Qed.

Lemma sort_desc_perm l : sort_desc l ≡ₚ l.
Proof.
  induction l as [|x l IH]; simpl; [done|].
  by rewrite insert_desc_perm, IH.
Qed.

Lemma insert_desc_sorted x l :
  StronglySorted ranks_before l → StronglySorted ranks_before (insert_desc x l).
Proof.
  induction 1 as [|y l Hsorted IH Hall]; simpl; [by repeat constructor|].
  destruct (Rle_dec (p y) (p x)) as [Hle|Hgt].
  - constructor; [by constructor|]. constructor; [done|].
    eapply Forall_impl; [done|]. unfold ranks_before. intros z Hz. lra.
  - constructor; [done|]. rewrite insert_desc_perm.
    constructor; [unfold ranks_before; lra | done].
Qed.

Lemma sort_desc_sorted l : StronglySorted ranks_before (sort_desc l).
Proof.
  induction l as [|x l IH]; simpl; [constructor|]. by apply insert_desc_sorted.
Qed.

Lemma topK_length probs k : length (topK probs k) ≤ k.
Proof. unfold topK. rewrite length_take. lia. Qed.

Lemma sort_desc_length l : length (sort_desc l) = length l.
Proof. apply Permutation_length, sort_desc_perm. Qed.

Lemma topK_size probs k : length (topK probs k) = k `min` length probs.
Proof.
  unfold topK, entries_of. by rewrite length_take, sort_desc_length, length_imap.
Qed.

(** [topK] is the first [k] entries of all entries arranged by
    descending probability. *)
Lemma topK_ranked probs k :
  ∃ rest, topK probs k ++ rest ≡ₚ entries_of probs
          ∧ StronglySorted ranks_before (topK probs k ++ rest).
Proof.
  exists (drop k (sort_desc (entries_of probs))). unfold topK.
  rewrite take_drop. split; [apply sort_desc_perm | apply sort_desc_sorted].
Qed.

Lemma topK_sorted probs k : StronglySorted ranks_before (topK probs k).
Proof.
  destruct (topK_ranked probs k) as (rest & _ & Hs).
  by apply StronglySorted_app_1_l in Hs.
Qed.

Lemma topK_entry probs k e :
  e ∈ topK probs k →
  ∃ i x, probs !! i = Some x ∧ e = {| label := label_of i; p := x |}.
Proof.
  intros He. destruct (topK_ranked probs k) as (rest & Hperm & _).
  assert (e ∈ entries_of probs) as Hin.
  { rewrite <- Hperm. apply elem_of_app. by left. }
  apply elem_of_lookup_imap in Hin as (i & x & -> & Hi). by exists i, x.
Qed.

Lemma label_of_known i l : LABELS !! i = Some l → label_of i = l.
Proof. unfold label_of. by intros ->. Qed.

Lemma label_of_fallback i :
  length LABELS ≤ i → label_of i = NilZero.string_of_uint (Nat.to_uint i).
Proof.
  intros Hi. unfold label_of. by rewrite (lookup_ge_None_2 LABELS i Hi).
Qed.

Example label_of_2 : label_of 2 = "STOP"%string.
Proof. reflexivity. Qed.
Example label_of_7 : label_of 7 = "7"%string.
Proof. reflexivity. Qed.

Example topK_example :
  topK [0.1; 0.7; 0.2]%R 2
  = [ {| label := "STRONG"; p := 0.7 |}; {| label := "STOP"; p := 0.2 |} ]%R.
Proof.
  unfold topK, entries_of. simpl.
  repeat (destruct (Rle_dec _ _) as [?|?]; simpl in *; try lra).
  done.
Qed.

End AdapterFacts.

(* ================================================================= *)
(** ** Facts about the handler and the event loop                     *)
(* ================================================================= *)

Module PipelineFacts.
Import Demuxer DemuxerFacts Adapter AdapterFacts Pipeline.

(** *** Frames come out in stream order *)

Lemma frames_in_stream_order buf : in_stream_order (frames_in buf) buf.
Proof.
  induction buf as [buf Hsoi|buf soi Hsoi Heoi|buf soi eoi Hsoi Heoi IH]
    using window_ind; rewrite frames_in_unfold, Hsoi; [constructor|..];
    rewrite Heoi; [constructor|].
  pose proof (indexOf_Some _ _ _ _ EOI_nonempty Heoi) as (Hle & Hlen & _).
  assert (buf = take soi buf ++ subarray buf soi (eoi + 2)
                ++ subarray_from buf (eoi + 2)) as Hsplit.
  { unfold subarray, subarray_from.
    rewrite <- (take_drop soi buf) at 1. f_equal.
    rewrite <- (take_drop (eoi + 2 - soi) (drop soi buf)) at 1. f_equal.
    rewrite drop_drop. f_equal. lia. }
  rewrite Hsplit at 3. by constructor.
Qed.

(** *** Traces *)

Lemma writes_app tr1 tr2 : writes (tr1 ++ tr2) = writes tr1 ++ writes tr2.
Proof. apply omap_app. Qed.
Lemma decodes_app tr1 tr2 : decodes (tr1 ++ tr2) = decodes tr1 ++ decodes tr2.
Proof. apply omap_app. Qed.
Lemma logs_app tr1 tr2 : logs (tr1 ++ tr2) = logs tr1 ++ logs tr2.
Proof. apply omap_app. Qed.

(** Every path through the handler, one goal per path. *)
Ltac handler_paths :=
  unfold callback, onFrame, forward, gate, infer;
  repeat match goal with
         | |- context [if ?b then _ else _] => destruct b eqn:?
         | |- context [match decode_result ?w with _ => _ end] =>
             destruct (decode_result w) eqn:?
         | |- context [match make_input ?rgba with _ => _ end] =>
             destruct (make_input rgba) eqn:?
         | |- context [match predict_result ?w ?input with _ => _ end] =>
             destruct (predict_result w input) eqn:?
         end;
  simpl in *.

(** What one call of the handler adds to the trace. *)
Lemma onFrame_trace w frame st :
  ∃ new, trace (snd (onFrame w frame st)) = trace st ++ new
         ∧ writes new = (if player_killed w then [] else [frame])
         ∧ decodes new `sublist_of` [frame]
         ∧ logs new = []
         ∧ received (snd (onFrame w frame st)) = received st ++ [frame]
         ∧ lastLog (snd (onFrame w frame st)) = lastLog st.
Proof.
  handler_paths; rewrite <- ?app_assoc; simpl;
    first [ exists []; split; [by rewrite app_nil_r|]
          | eexists; split; [reflexivity|] ];
    simpl; repeat split; try done;
    try (by apply sublist_nil_l); by apply sublist_skip.
Qed.

Lemma resume_trace o st :
  ∃ new, trace (resume o st) = trace st ++ new
         ∧ writes new = [] ∧ decodes new = []
         ∧ received (resume o st) = received st.
Proof.
  unfold resume, report.
  repeat match goal with
         | |- context [if ?b then _ else _] => destruct b eqn:?
         | |- context [match ?x with _ => _ end] => destruct x eqn:?
         end; simpl; rewrite <- ?app_assoc;
    first [ exists []; split; [by rewrite app_nil_r|]
          | eexists; split; [reflexivity|] ]; done.
Qed.

(** The parser's callback is the handler, its promise dropped. *)
Lemma callback_fields world frame st :
  let st' := snd (onFrame (world (length (received st))) frame st) in
  busy (callback world frame st) = busy st'
  ∧ lastLog (callback world frame st) = lastLog st'
  ∧ awaiting (callback world frame st) = awaiting st'
  ∧ trace (callback world frame st) = trace st'
  ∧ received (callback world frame st) = received st'.
Proof. done. Qed.

Lemma step_Data world sys chunk :
  step world sys (Data chunk)
  = {| buf := remainder (buf sys ++ chunk);
       handler := foldl (λ st frame, callback world frame st) (handler sys)
                        (frames_in (buf sys ++ chunk)) |}.
Proof. unfold step, parse. by rewrite run_callback. Qed.

Lemma run_events_snoc world evs ev :
  run_events world (evs ++ [ev]) = step world (run_events world evs) ev.
Proof. unfold run_events. by rewrite foldl_app. Qed.

(** A property of the handler's state that every call of the handler
    and every resumption keeps holds throughout every run. *)
Lemma run_events_invariant world (P : State → Prop) :
  P init →
  (∀ frame st, P st → P (callback world frame st)) →
  (∀ o st, P st → P (resume o st)) →
  ∀ evs, P (handler (run_events world evs)).
Proof.
  intros Hinit Hcall Hresume evs.
  induction evs as [|ev evs IH] using rev_ind; [done|].
  rewrite run_events_snoc. destruct ev as [chunk|o].
  - rewrite step_Data. simpl.
    generalize (frames_in (buf (run_events world evs) ++ chunk)).
    generalize dependent (handler (run_events world evs)).
    intros st Hst frames. revert st Hst.
    induction frames as [|frame frames IHf]; intros st Hst; [done|].
    simpl. apply IHf, Hcall, Hst.
  - simpl. by apply Hresume.
Qed.

(** *** The gate *)

Lemma onFrame_flag w frame st :
  flag_tracks_flight st → flag_tracks_flight (snd (onFrame w frame st)).
Proof.
  unfold flag_tracks_flight.
  intros [[Hb Ha]|[Hb [probs Ha]]]; handler_paths;
    rewrite ?Ha in *; simpl; try congruence; eauto.
Qed.

Lemma gate_flag w frame st :
  flag_tracks_flight st → flag_tracks_flight (snd (gate w frame st)).
Proof.
  unfold flag_tracks_flight.
  intros [[Hb Ha]|[Hb [probs Ha]]]; handler_paths;
    rewrite ?Ha in *; simpl; try congruence; eauto.
Qed.

Lemma resume_flag o st :
  flag_tracks_flight st → flag_tracks_flight (resume o st).
Proof.
  unfold flag_tracks_flight, resume, report.
  intros [[Hb Ha]|[Hb [probs Ha]]]; rewrite Ha; [by left|].
  left. destruct o as [now|]; [|done].
  simpl. destruct (now - lastLog st >? 500)%Z; [|done].
  destruct (topK probs 2); done.
Qed.

Lemma callback_flag world frame st :
  flag_tracks_flight st → flag_tracks_flight (callback world frame st).
Proof.
  intros Hst. unfold flag_tracks_flight.
  destruct (callback_fields world frame st) as (-> & _ & -> & _).
  by apply onFrame_flag.
Qed.

Lemma init_flag : flag_tracks_flight init.
Proof. by left. Qed.

Lemma flag_tracks_flight_at_most_one st :
  flag_tracks_flight st →
  in_flight st ≤ 1 ∧ (busy st = true ↔ in_flight st = 1).
Proof.
  unfold in_flight. intros [[-> ->]|[-> [probs ->]]]; simpl; split; try lia; done.
Qed.

Lemma reachable_flag world st : reachable world st → flag_tracks_flight st.
Proof.
  induction 1; [apply init_flag | by apply callback_flag | by apply resume_flag].
Qed.

Lemma run_events_reachable world evs :
  reachable world (handler (run_events world evs)).
Proof.
  apply run_events_invariant; [constructor | by constructor..].
Qed.

Lemma gate_busy w frame st : busy st = true → gate w frame st = (Returned, st).
Proof. unfold gate. by intros ->. Qed.

Lemma gate_free w frame st :
  busy st = false → gate w frame st = infer w frame (set_busy true st).
Proof. unfold gate. by intros ->. Qed.

Lemma infer_trace w frame st :
  ∃ rest, trace (snd (infer w frame st)) = trace st ++ Decode frame :: rest.
Proof.
  handler_paths; rewrite <- ?app_assoc; simpl; by eexists.
Qed.

(** C1: between any two steps of the pipeline at most one inference call
    is in flight, and the flag is set exactly while one is; a frame that
    reaches the gate while the flag is set is dropped at once, without
    an error and without touching anything; otherwise the flag is set
    before the frame is handed to the decoder, and still at most one
    call is in flight afterwards. *)
Theorem one_inference_in_flight world st w frame :
  reachable world st →
  in_flight st ≤ 1
  ∧ (busy st = true ↔ in_flight st = 1)
  ∧ (if busy st
     then gate w frame st = (Returned, st)
     else (∃ rest, trace (snd (gate w frame st))
                   = trace st ++ SetBusy true :: Decode frame :: rest)
          ∧ in_flight (snd (gate w frame st)) ≤ 1).
Proof.
  intros Hst%reachable_flag.
  destruct (flag_tracks_flight_at_most_one st Hst) as [Hle Hiff].
  split; [done|]. split; [done|].
  destruct (busy st) eqn:Hb; [by apply gate_busy|].
  split.
  - rewrite gate_free by done.
    destruct (infer_trace w frame (set_busy true st)) as [rest ->].
    exists rest. simpl. by rewrite <- app_assoc.
  - by apply flag_tracks_flight_at_most_one, gate_flag.
Qed.

Lemma one_inference_in_flight_witness :
  let st := callback (Samples.always Samples.decodes_fine) Samples.frame_a init in
  in_flight st ≤ 1
  ∧ (busy st = true ↔ in_flight st = 1)
  ∧ (if busy st
     then gate Samples.decodes_fine Samples.frame_b st = (Returned, st)
     else (∃ rest, trace (snd (gate Samples.decodes_fine Samples.frame_b st))
                   = trace st ++ SetBusy true :: Decode Samples.frame_b :: rest)
          ∧ in_flight (snd (gate Samples.decodes_fine Samples.frame_b st)) ≤ 1).
Proof.
  apply (one_inference_in_flight (Samples.always Samples.decodes_fine)).
  apply reach_call, reach_init.
Defined.

(** *** Exit paths of an admitted frame *)

Lemma last_snoc_trace st e : last (trace (emit e st)) = Some e.
Proof. simpl. apply last_snoc. Qed.

Lemma resume_resets o st probs rest :
  awaiting st = probs :: rest →
  busy (resume o st) = false
  ∧ last (trace (resume o st)) = Some (SetBusy false)
  ∧ awaiting (resume o st) = rest.
Proof.
  intros Ha. unfold resume. rewrite Ha. simpl.
  split; [done|]. split; [apply last_snoc|].
  destruct o as [now|]; [|done]. unfold report. simpl.
  destruct (now - lastLog st >? 500)%Z; [|done].
  destruct (topK probs 2); done.
Qed.

Lemma infer_decode_failure w frame st :
  decode_result w = DecodeThrows ∨ decode_result w = DecodeNoData →
  infer w frame st = (Returned, set_busy false (emit (Decode frame) st)).
Proof. unfold infer. by intros [-> | ->]. Qed.

(** C5: for a frame that passes the gate the flag is set right before
    the decoder is called, and it is reset to false as the last thing on
    every way out: when the call ends before its [await], and when the
    suspended call is resumed, however the awaited promise settled.  In
    particular, when the decode fails (an exception, or no data) the
    call ends at once with the flag reset, nothing is logged, the
    classifier is not invoked, nothing is left in flight, and the
    handler's promise is fulfilled, not rejected. *)
Theorem flag_reset_on_every_exit w frame st :
  busy st = false →
  awaiting st = [] →
  (∃ rest, trace (snd (gate w frame st))
           = trace st ++ SetBusy true :: Decode frame :: rest)
  ∧ match gate w frame st with
    | (Returned, st') =>
        busy st' = false ∧ last (trace st') = Some (SetBusy false)
    | (Suspended, st') =>
        busy st' = true
        ∧ ∀ o, busy (resume o st') = false
               ∧ last (trace (resume o st')) = Some (SetBusy false)
    | (Rejected, _) => False
    end
  ∧ (decode_result w = DecodeThrows ∨ decode_result w = DecodeNoData →
     ∃ st', gate w frame st = (Returned, st')
            ∧ busy st' = false
            ∧ awaiting st' = []
            ∧ lastLog st' = lastLog st
            ∧ trace st' = trace st ++ [SetBusy true; Decode frame; SetBusy false]
            ∧ fst (onFrame w frame st) = Returned).
Proof.
  intros Hb Ha. split; [|split].
  - rewrite gate_free by done.
    destruct (infer_trace w frame (set_busy true st)) as [rest ->].
    exists rest. simpl. by rewrite <- app_assoc.
  - rewrite gate_free by done. unfold infer.
    destruct (decode_result w) as [| |width height rgba];
      [by split; [|apply last_snoc]..|].
    destruct (make_input rgba) as [input|]; [|by split; [|apply last_snoc]].
    destruct (predict_result w input) as [scores|];
      [|by split; [|apply last_snoc]].
    split; [done|]. intros o.
    edestruct (resume_resets o) as (Hbusy & Hlast & _); [|by split].
    simpl. by rewrite Ha.
  - intros Hfail. rewrite gate_free by done.
    rewrite infer_decode_failure by done.
    eexists. split; [done|]. simpl. rewrite <- !app_assoc.
    repeat split; try done.
    unfold onFrame, forward.
    destruct (player_killed w); unfold gate; simpl; rewrite Hb;
      by rewrite infer_decode_failure.
Qed.

Lemma flag_reset_on_every_exit_witness :
  let w := Samples.decode_fails in
  let frame := Samples.frame_b in
  (∃ rest, trace (snd (gate w frame init))
           = trace init ++ SetBusy true :: Decode frame :: rest)
  ∧ match gate w frame init with
    | (Returned, st') =>
        busy st' = false ∧ last (trace st') = Some (SetBusy false)
    | (Suspended, st') =>
        busy st' = true
        ∧ ∀ o, busy (resume o st') = false
               ∧ last (trace (resume o st')) = Some (SetBusy false)
    | (Rejected, _) => False
    end
  ∧ (decode_result w = DecodeThrows ∨ decode_result w = DecodeNoData →
     ∃ st', gate w frame init = (Returned, st')
            ∧ busy st' = false
            ∧ awaiting st' = []
            ∧ lastLog st' = lastLog init
            ∧ trace st' = trace init ++ [SetBusy true; Decode frame; SetBusy false]
            ∧ fst (onFrame w frame init) = Returned).
Proof.
  apply (flag_reset_on_every_exit Samples.decode_fails Samples.frame_b init);
    reflexivity.
Defined.

(** Two frames in one chunk while the first inference is pending: both
    go to the preview, only the first to the decoder. *)
Example second_frame_dropped :
  let st := handler (run_events (Samples.always Samples.decodes_fine)
                       [Data (Samples.frame_a ++ Samples.frame_b)]) in
  writes (trace st) = [Samples.frame_a; Samples.frame_b]
  ∧ decodes (trace st) = [Samples.frame_a]
  ∧ busy st = true ∧ in_flight st = 1.
Proof. vm_compute. done. Qed.

(** *** Order of delivery *)

Lemma parse_all_snoc_frames buf0 chunks chunk seen :
  snd (parse_all record_frame buf0 (chunks ++ [chunk]) seen)
  = snd (parse_all record_frame buf0 chunks seen)
    ++ frames_in (fst (parse_all record_frame buf0 chunks seen) ++ chunk).
Proof.
  revert buf0 seen. induction chunks as [|c chunks IH]; intros buf0 seen; simpl;
    unfold parse; rewrite run_record; [done | apply IH].
Qed.

Lemma emitted_snoc chunks chunk :
  emitted (chunks ++ [chunk])
  = emitted chunks ++ frames_in (window chunks ++ chunk).
Proof. apply parse_all_snoc_frames. Qed.

Lemma emitted_stream_order chunks :
  in_stream_order (emitted chunks) (concat chunks).
Proof. rewrite emitted_frames_in. apply frames_in_stream_order. Qed.

Lemma admitted_app l1 l2 : admitted (l1 ++ l2) = admitted l1 ++ admitted l2.
Proof. unfold admitted. by rewrite filter_app, fmap_app. Qed.

Lemma admitted_sublist l : admitted l `sublist_of` l.*1.
Proof.
  induction l as [|[frame flag] l IH]; [done|].
  unfold admitted. rewrite filter_cons. simpl.
  destruct (decide (flag = false)); [by apply sublist_skip | by apply sublist_cons].
Qed.

Lemma infer_verdict w frame st :
  gated (snd (infer w frame st)) = gated st
  ∧ ∃ rest, trace (snd (infer w frame st)) = trace st ++ Decode frame :: rest
            ∧ decodes rest = [].
Proof.
  handler_paths; rewrite <- ?app_assoc; simpl; (split; [done|]); by eexists.
Qed.

(** The gate's verdict on one frame: the frame meets the flag as the
    call found it, and goes to the decoder exactly when the flag is
    clear. *)
Lemma onFrame_verdict w frame st :
  gated (snd (onFrame w frame st)) = gated st ++ [(frame, busy st)]
  ∧ ∃ new, trace (snd (onFrame w frame st)) = trace st ++ new
           ∧ decodes new = (if busy st then [] else [frame]).
Proof.
  unfold onFrame.
  set (st1 := arrive frame (forward w frame (receive frame st))).
  assert (busy st1 = busy st
          ∧ gated st1 = gated st ++ [(frame, busy st)]
          ∧ ∃ pre, trace st1 = trace st ++ pre ∧ decodes pre = [])
    as (Hb & Hg & pre & Htr & Hpre).
  { unfold st1, forward. destruct (player_killed w); simpl;
      (split; [done|]); (split; [done|]);
      [exists []; by rewrite app_nil_r | by eexists]. }
  clearbody st1. rewrite <- Hb in Hg |- *. clear Hb.
  destruct (busy st1) eqn:Hbusy.
  - rewrite gate_busy by done. simpl. split; [done|].
    exists pre. by rewrite Hpre.
  - rewrite gate_free by done.
    destruct (infer_verdict w frame (set_busy true st1)) as (-> & rest & -> & Hrest).
    simpl. split; [done|].
    exists (pre ++ SetBusy true :: Decode frame :: rest).
    rewrite Htr, <- !app_assoc. split; [done|].
    rewrite decodes_app, Hpre. simpl. by rewrite Hrest.
Qed.

Lemma resume_gated o st : gated (resume o st) = gated st.
Proof.
  unfold resume, report.
  repeat match goal with
         | |- context [if ?b then _ else _] => destruct b
         | |- context [match ?x with _ => _ end] => destruct x
         end; done.
Qed.

Lemma callback_delivery world frame st :
  received (callback world frame st) = received st ++ [frame]
  ∧ gated (callback world frame st) = gated st ++ [(frame, busy st)]
  ∧ ∃ new, trace (callback world frame st) = trace st ++ new
           ∧ writes new `sublist_of` [frame]
           ∧ decodes new = admitted [(frame, busy st)]
           ∧ (never_killed world → writes new = [frame]).
Proof.
  destruct (callback_fields world frame st) as (_ & _ & _ & -> & ->).
  unfold callback.
  destruct (onFrame_trace (world (length (received st))) frame st)
    as (new & Htr & Hw & _ & _ & Hr & _).
  destruct (onFrame_verdict (world (length (received st))) frame st)
    as (Hg & new' & Htr' & Hd).
  rewrite Htr in Htr'. apply app_inv_head in Htr' as <-.
  split; [done|]. split; [done|].
  exists new. repeat split; try done.
  - rewrite Hw. destruct (player_killed _); [by apply sublist_nil_l | done].
  - rewrite Hd. by destruct (busy st).
  - intros Hnever. by rewrite Hw, Hnever.
Qed.

Lemma foldl_callback_delivery world frames st :
  let st' := foldl (λ s frame, callback world frame s) st frames in
  received st' = received st ++ frames
  ∧ (∃ arrivals, gated st' = gated st ++ arrivals
                 ∧ arrivals.*1 = frames
                 ∧ ∃ new, trace st' = trace st ++ new
                          ∧ writes new `sublist_of` frames
                          ∧ decodes new = admitted arrivals
                          ∧ (never_killed world → writes new = frames)).
Proof.
  revert st. induction frames as [|frame frames IH]; intros st; simpl.
  - rewrite app_nil_r. split; [done|].
    exists []. rewrite app_nil_r. split; [done|]. split; [done|].
    exists []. by rewrite app_nil_r.
  - destruct (IH (callback world frame st))
      as (Hr & arrivals & Hg & Hfst & new2 & Htr & Hw & Hd & Hn).
    destruct (callback_delivery world frame st)
      as (Hr1 & Hg1 & new1 & Htr1 & Hw1 & Hd1 & Hn1).
    split; [by rewrite Hr, Hr1, <- app_assoc|].
    exists ((frame, busy st) :: arrivals).
    split; [by rewrite Hg, Hg1, <- app_assoc|].
    split; [by rewrite fmap_cons, Hfst|].
    exists (new1 ++ new2). rewrite Htr, Htr1, <- app_assoc.
    split; [done|]. rewrite writes_app, decodes_app.
    change (frame :: frames) with ([frame] ++ frames).
    split; [by apply sublist_app|].
    split; [by rewrite Hd, Hd1, <- admitted_app|].
    intros Hnever. by rewrite Hn, Hn1.
Qed.

Lemma chunks_of_snoc evs ev :
  chunks_of (evs ++ [ev])
  = chunks_of evs ++ match ev with Data c => [c] | Settle _ => [] end.
Proof. unfold chunks_of. rewrite omap_app. by destruct ev. Qed.

Lemma run_events_delivery world evs :
  let sys := run_events world evs in
  let frames := emitted (chunks_of evs) in
  buf sys = window (chunks_of evs)
  ∧ received (handler sys) = frames
  ∧ (gated (handler sys)).*1 = frames
  ∧ decodes (trace (handler sys)) = admitted (gated (handler sys))
  ∧ writes (trace (handler sys)) `sublist_of` frames
  ∧ (never_killed world → writes (trace (handler sys)) = frames).
Proof.
  induction evs as [|ev evs IH] using rev_ind; [by repeat split|].
  destruct IH as (Hbuf & Hrecv & Hg & Hd & Hw & Hn).
  rewrite run_events_snoc, chunks_of_snoc. destruct ev as [chunk|o].
  - rewrite step_Data, window_snoc, emitted_snoc. simpl.
    destruct (foldl_callback_delivery world
                (frames_in (buf (run_events world evs) ++ chunk))
                (handler (run_events world evs)))
      as (Hr' & arrivals & Hg' & Hfst & new & Htr & Hw' & Hd' & Hn').
    rewrite Hbuf in *.
    split; [done|]. split; [by rewrite Hr', Hrecv|].
    split; [by rewrite Hg', fmap_app, Hg, Hfst|].
    rewrite Htr, writes_app, decodes_app.
    split; [by rewrite Hg', admitted_app, Hd, Hd'|].
    split; [by apply sublist_app|].
    intros Hnever. by rewrite Hn, Hn'.
  - rewrite !app_nil_r. simpl.
    destruct (resume_trace o (handler (run_events world evs)))
      as (new & Htr & Hw' & Hd' & Hr').
    rewrite Htr, writes_app, decodes_app, Hw', Hd', !app_nil_r, Hr', resume_gated.
    by repeat split.
Qed.

(** C6: in every run the demuxer's frames lie in the byte stream one
    after the other in the order they are emitted; the handler is called
    with every emitted frame in that order; in each call the forwarder
    comes first, so the frames written to the preview are the emitted
    frames in order, all of them while the player is not flagged killed;
    every emitted frame then comes to the gate, in the same order, and
    meets the flag there; the frames handed to the decoder are exactly
    those that met a clear flag, a subsequence of the emitted frames in
    the same relative order; and no call of the handler ends with a
    rejected promise. *)
Theorem frames_delivered_in_order world evs :
  let st := handler (run_events world evs) in
  let frames := emitted (chunks_of evs) in
  in_stream_order frames (concat (chunks_of evs))
  ∧ received st = frames
  ∧ writes (trace st) `sublist_of` frames
  ∧ (never_killed world → writes (trace st) = frames)
  ∧ (gated st).*1 = frames
  ∧ decodes (trace st) = admitted (gated st)
  ∧ decodes (trace st) `sublist_of` frames
  ∧ (∀ w frame st0,
       fst (onFrame w frame st0) ≠ Rejected
       ∧ gated (snd (onFrame w frame st0)) = gated st0 ++ [(frame, busy st0)]
       ∧ ∃ new, trace (snd (onFrame w frame st0)) = trace st0 ++ new
                ∧ decodes new = (if busy st0 then [] else [frame])).
Proof.
  destruct (run_events_delivery world evs) as (_ & Hrecv & Hg & Hd & Hw & Hn).
  split; [apply emitted_stream_order|].
  split; [done|]. split; [done|]. split; [done|]. split; [done|].
  split; [done|].
  split; [cbv zeta; rewrite Hd, <- Hg; apply admitted_sublist|].
  intros w frame st0. split; [by handler_paths | apply onFrame_verdict].
Qed.

(** Three frames in one chunk, the first of which fails to decode: it
    and the second meet a clear flag, the third arrives while the second
    is pending. *)
Example verdicts_in_one_chunk :
  let world k := if k =? 0 then Samples.decode_fails else Samples.decodes_fine in
  let st := handler (run_events world
                       [Data (Samples.frame_a ++ Samples.frame_b ++ Samples.frame_a)]) in
  gated st = [(Samples.frame_a, false); (Samples.frame_b, false);
              (Samples.frame_a, true)]
  ∧ decodes (trace st) = [Samples.frame_a; Samples.frame_b].
Proof. vm_compute. done. Qed.

(** *** Preview forwarding *)

(** C7 (what the code does): the write to the preview is guarded by
    [player.killed] alone and nothing follows it up.  For every frame
    the handler is called with, the bytes are handed to [player.stdin]
    once when the player is not flagged killed, whatever has become of
    the player, and not at all when it is; the handler logs nothing about
    the write, its promise is not rejected, and the frame comes to the
    gate in the same call; so in a run in which the player is never
    flagged killed every emitted frame is written, also after the player
    has gone. *)
Theorem preview_forwarding world evs w frame st :
  (∃ new, trace (snd (onFrame w frame st)) = trace st ++ new
          ∧ writes new = (if player_killed w then [] else [frame])
          ∧ logs new = [])
  ∧ fst (onFrame w frame st) ≠ Rejected
  ∧ gated (snd (onFrame w frame st)) = gated st ++ [(frame, busy st)]
  ∧ writes (trace (handler (run_events world evs)))
    `sublist_of` emitted (chunks_of evs)
  ∧ (never_killed world →
     writes (trace (handler (run_events world evs))) = emitted (chunks_of evs)).
Proof.
  split; [|split; [|split; [|split]]].
  - destruct (onFrame_trace w frame st) as (new & Htr & Hw & _ & Hl & _).
    by exists new.
  - by handler_paths.
  - by destruct (onFrame_verdict w frame st) as [Hg _].
  - by destruct (run_events_delivery world evs) as (_ & _ & _ & _ & Hw & _).
  - by destruct (run_events_delivery world evs) as (_ & _ & _ & _ & _ & Hn).
Qed.

(** A player that is not flagged killed is written to on every frame:
    two frames in one chunk, two writes, no report about either. *)
Example writes_while_not_killed :
  let st := handler (run_events (Samples.always Samples.decode_fails)
                       [Data (Samples.frame_a ++ Samples.frame_b)]) in
  writes (trace st) = [Samples.frame_a; Samples.frame_b]
  ∧ logs (trace st) = [].
Proof. vm_compute. done. Qed.

(** *** Reporting *)

Lemma resume_logs now st probs rest :
  awaiting st = probs :: rest →
  logs (trace (resume (Resolved now) st))
  = logs (trace st)
    ++ (if (now - lastLog st >? 500)%Z
        then match topK probs 2 with
             | [] => []
             | ranked => [{| time := now; entries := ranked |}]
             end
        else [])
  ∧ lastLog (resume (Resolved now) st)
    = (if (now - lastLog st >? 500)%Z then now else lastLog st).
Proof.
  intros Ha. unfold resume, report. rewrite Ha. simpl.
  destruct (now - lastLog st >? 500)%Z; simpl.
  - destruct (topK probs 2) as [|e es]; simpl;
      rewrite !logs_app; simpl; by rewrite ?app_nil_r.
  - rewrite logs_app. simpl. by rewrite app_nil_r.
Qed.

Lemma init_throttled : reports_throttled init.
Proof. repeat split; constructor. Qed.

Lemma callback_throttled world frame st :
  reports_throttled st → reports_throttled (callback world frame st).
Proof.
  unfold reports_throttled.
  destruct (callback_fields world frame st) as (_ & -> & _ & -> & _).
  destruct (onFrame_trace (world (length (received st))) frame st)
    as (new & -> & _ & _ & Hl & _ & ->).
  by rewrite logs_app, Hl, app_nil_r.
Qed.

Lemma resume_throttled o st :
  reports_throttled st → reports_throttled (resume o st).
Proof.
  intros (Hsorted & Hlast & Hrank).
  destruct (awaiting st) as [|probs rest] eqn:Ha.
  { unfold resume. by rewrite Ha. }
  destruct o as [now|].
  - unfold reports_throttled.
    destruct (resume_logs now st probs rest Ha) as [-> ->].
    destruct (Z.gtb_spec (now - lastLog st) 500) as [Hlate|Hearly];
      [|by rewrite app_nil_r].
    assert (Forall (λ r, (time r ≤ now)%Z) (logs (trace st))) as Hlast'.
    { eapply Forall_impl; [exact Hlast|]. simpl. intros r Hr. lia. }
    destruct (topK probs 2) as [|e es] eqn:Htop; [by rewrite app_nil_r|].
    split; [|split].
    + apply StronglySorted_app. split; [|split; [done | by repeat constructor]].
      intros r1 r2 Hr1 ->%list_elem_of_singleton. unfold spaced. simpl.
      rewrite Forall_forall in Hlast. specialize (Hlast r1 Hr1). lia.
    + apply Forall_app. split; [done|]. by repeat constructor.
    + apply Forall_app. split; [done|]. repeat constructor.
      exists probs. simpl. by rewrite Htop.
  - unfold reports_throttled, resume. rewrite Ha. simpl.
    by rewrite logs_app, app_nil_r.
Qed.

Lemma reachable_throttled world st : reachable world st → reports_throttled st.
Proof.
  induction 1; [apply init_throttled | by apply callback_throttled
               | by apply resume_throttled].
Qed.

Lemma entries_of_lookup probs i x :
  probs !! i = Some x →
  entries_of probs !! i = Some {| label := label_of i; p := x |}.
Proof. intros Hi. unfold entries_of. by rewrite list_lookup_imap, Hi. Qed.

(** C9: when a suspended inference completes, a report is logged only
    if more than 500 ms have passed since the last one, so any two
    reports of a run are more than 500 ms apart whatever the rate of
    inferences; when that much time has passed and the distribution is
    not empty, exactly one report is logged and the time is noted; a
    report holds the first two of the entries arranged by descending
    probability, the only one when there is just one; the entry for index
    [i] carries the configured label, or the decimal index when [i] lies
    beyond the label set. *)
Theorem reporting_policy world st :
  reachable world st →
  reports_throttled st
  ∧ (∀ now probs rest,
       awaiting st = probs :: rest →
       logs (trace (resume (Resolved now) st))
       = logs (trace st)
         ++ (if (now - lastLog st >? 500)%Z
             then match topK probs 2 with
                  | [] => []
                  | ranked => [{| time := now; entries := ranked |}]
                  end
             else []))
  ∧ (∀ now probs rest,
       awaiting st = probs :: rest → probs ≠ [] → (now - lastLog st > 500)%Z →
       logs (trace (resume (Resolved now) st))
       = logs (trace st) ++ [{| time := now; entries := topK probs 2 |}]
       ∧ lastLog (resume (Resolved now) st) = now)
  ∧ (∀ probs,
       length (topK probs 2) = 2 `min` length probs
       ∧ ∃ rest, topK probs 2 ++ rest ≡ₚ entries_of probs
                 ∧ StronglySorted ranks_before (topK probs 2 ++ rest))
  ∧ (∀ probs i x,
       probs !! i = Some x →
       entries_of probs !! i = Some {| label := label_of i; p := x |})
  ∧ (∀ i l, LABELS !! i = Some l → label_of i = l)
  ∧ (∀ i, length LABELS ≤ i →
          label_of i = NilZero.string_of_uint (Nat.to_uint i)).
Proof.
  intros Hst. split; [by eapply reachable_throttled|].
  split; [intros now probs rest Ha; by destruct (resume_logs now st probs rest Ha)|].
  split.
  { intros now probs rest Ha Hne Hlate.
    destruct (resume_logs now st probs rest Ha) as [-> ->].
    assert ((now - lastLog st >? 500)%Z = true) as -> by lia.
    split; [|done]. pose proof (topK_size probs 2) as Hsize.
    destruct (topK probs 2); [|done]. destruct probs; [done|]. simpl in Hsize. lia. }
  split; [intros probs; split; [apply topK_size | apply topK_ranked]|].
  split; [apply entries_of_lookup|].
  split; [apply label_of_known | apply label_of_fallback].
Qed.

Lemma reporting_policy_witness :
  let world := Samples.always Samples.decodes_fine in
  let st := callback world Samples.frame_b
              (resume (Resolved 1000) (callback world Samples.frame_a init)) in
  reports_throttled st
  ∧ (∀ now probs rest,
       awaiting st = probs :: rest →
       logs (trace (resume (Resolved now) st))
       = logs (trace st)
         ++ (if (now - lastLog st >? 500)%Z
             then match topK probs 2 with
                  | [] => []
                  | ranked => [{| time := now; entries := ranked |}]
                  end
             else []))
  ∧ (∀ now probs rest,
       awaiting st = probs :: rest → probs ≠ [] → (now - lastLog st > 500)%Z →
       logs (trace (resume (Resolved now) st))
       = logs (trace st) ++ [{| time := now; entries := topK probs 2 |}]
       ∧ lastLog (resume (Resolved now) st) = now)
  ∧ (∀ probs,
       length (topK probs 2) = 2 `min` length probs
       ∧ ∃ rest, topK probs 2 ++ rest ≡ₚ entries_of probs
                 ∧ StronglySorted ranks_before (topK probs 2 ++ rest))
  ∧ (∀ probs i x,
       probs !! i = Some x →
       entries_of probs !! i = Some {| label := label_of i; p := x |})
  ∧ (∀ i l, LABELS !! i = Some l → label_of i = l)
  ∧ (∀ i, length LABELS ≤ i →
          label_of i = NilZero.string_of_uint (Nat.to_uint i)).
Proof.
  apply (reporting_policy (Samples.always Samples.decodes_fine)).
  apply reach_call, reach_resume, reach_call, reach_init.
Defined.

(** *** The classifier's input *)

Lemma gate_decoded w frame st width height rgba :
  busy st = false →
  decode_result w = Decoded width height rgba →
  gate w frame st
  = let st1 := emit (Predict (input_of rgba))
                 (emit (Decode frame) (set_busy true st)) in
    match predict_result w (input_of rgba) with
    | None => (Returned, set_busy false st1)
    | Some scores =>
        (Suspended, set_awaiting (awaiting st1 ++ [softmax scores]) st1)
    end.
Proof.
  intros Hb Hd. rewrite gate_free by done. unfold infer.
  by rewrite Hd, make_input_Some.
Qed.





(** C10: the width and height the decoder reports are never looked at.
    Whatever they and the length of the decoded data are, the
    destination array has 224 * 224 * 3 bytes, data beyond the first
    224 * 224 pixels has no effect, bytes of pixels the data does not
    hold stay zero, the tensor is built with shape 1 x 224 x 224 x 3,
    and the classifier is invoked on it; the call is never ended as a
    failure on account of the size. *)
Theorem dimensions_never_checked w frame st width height rgba :
  busy st = false →
  decode_result w = Decoded width height rgba →
  make_input rgba = Some (input_of rgba)
  ∧ shape (input_of rgba) = [1; 224; 224; 3]
  ∧ length (values (input_of rgba)) = WIDTH * HEIGHT * 3
  ∧ length (rgba_to_rgb rgba) = WIDTH * HEIGHT * 3
  ∧ rgba_to_rgb (take (4 * (WIDTH * HEIGHT)) rgba) = rgba_to_rgb rgba
  ∧ (∀ k c, c < 3 → k < WIDTH * HEIGHT → length rgba ≤ 4 * k →
            rgba_to_rgb rgba !! (3 * k + c) = Some x00)
  ∧ (∃ rest, trace (snd (gate w frame st))
             = trace st ++ [SetBusy true; Decode frame; Predict (input_of rgba)]
               ++ rest)
  ∧ fst (gate w frame st) ≠ Rejected.
Proof.
  intros Hb Hd.
  split; [apply make_input_Some|]. split; [done|].
  split; [cbn [input_of values]; by rewrite length_fmap, rgba_to_rgb_length|].
  split; [apply rgba_to_rgb_length|].
  split; [apply rgba_to_rgb_take|].
  split.
  - intros k c Hc Hk Hlen. rewrite rgba_to_rgb_pixel by done.
    rewrite decide_True by lia. by rewrite decide_False by lia.
  - rewrite (gate_decoded _ _ _ _ _ _ Hb Hd). cbv zeta.
    destruct (predict_result w (input_of rgba)) as [scores|]; simpl;
      rewrite <- !app_assoc; simpl; split; try done; by eexists.
Qed.

Lemma dimensions_never_checked_witness :
  let w := Samples.decodes_fine in
  let rgba := [x10; x20; x30; xff] in
  make_input rgba = Some (input_of rgba)
  ∧ shape (input_of rgba) = [1; 224; 224; 3]
  ∧ length (values (input_of rgba)) = WIDTH * HEIGHT * 3
  ∧ length (rgba_to_rgb rgba) = WIDTH * HEIGHT * 3
  ∧ rgba_to_rgb (take (4 * (WIDTH * HEIGHT)) rgba) = rgba_to_rgb rgba
  ∧ (∀ k c, c < 3 → k < WIDTH * HEIGHT → length rgba ≤ 4 * k →
            rgba_to_rgb rgba !! (3 * k + c) = Some x00)
  ∧ (∃ rest, trace (snd (gate w Samples.frame_a init))
             = trace init ++ [SetBusy true; Decode Samples.frame_a;
                              Predict (input_of rgba)] ++ rest)
  ∧ fst (gate w Samples.frame_a init) ≠ Rejected.
Proof.
  apply (dimensions_never_checked Samples.decodes_fine Samples.frame_a init 1 1);
    reflexivity.
Defined.

End PipelineFacts.

(* ================================================================= *)
(** ** More about the demuxer                                         *)
(* ================================================================= *)

Module DemuxerMore.
Import Demuxer DemuxerFacts PipelineFacts.

(** *** Shape of an emitted frame *)

Lemma subarray_frame buf soi eoi :
  indexOf buf SOI 0 = Some soi →
  indexOf buf EOI (soi + 2) = Some eoi →
  let frame := subarray buf soi (eoi + 2) in
  delimited frame ∧ closes_first frame ∧ length frame = eoi + 2 - soi
  ∧ drop soi buf = frame ++ subarray_from buf (eoi + 2).
Proof.
  intros Hsoi Heoi frame.
  pose proof (indexOf_Some _ _ _ _ SOI_nonempty Hsoi) as (_ & Hslen & Hsat & _).
  pose proof (indexOf_Some _ _ _ _ EOI_nonempty Heoi) as (Hle & Helen & Heat & _).
  simpl in Hslen, Helen.
  assert (length frame = eoi + 2 - soi) as Hlen.
  { unfold frame, subarray. rewrite length_take, length_drop. lia. }
  assert (drop soi buf = frame ++ subarray_from buf (eoi + 2)) as Hsplit.
  { unfold frame, subarray, subarray_from.
    rewrite <- (take_drop (eoi + 2 - soi) (drop soi buf)) at 1. f_equal.
    rewrite drop_drop. f_equal. lia. }
  split; [|split; [|done]].
  - apply starts_with_spec in Hsat as [rest1 Hrest1].
    apply starts_with_spec in Heat as [rest2 Hrest2].
    exists (take (eoi - (soi + 2)) rest1).
    unfold frame, subarray. rewrite Hrest1.
    assert (rest1 = drop (soi + 2) buf) as Hr1.
    { rewrite <- drop_drop, Hrest1. done. }
    replace (eoi + 2 - soi) with (2 + (eoi - soi)) by lia.
    change (take (2 + (eoi - soi)) (SOI ++ rest1)) with (SOI ++ take (eoi - soi) rest1).
    f_equal.
    rewrite <- (take_drop (eoi - (soi + 2)) rest1) at 1.
    rewrite take_app_ge by (rewrite length_take, Hr1, length_drop; lia).
    f_equal. rewrite length_take, Hr1, length_drop, drop_drop.
    replace (soi + 2 + (eoi - (soi + 2))) with eoi by lia.
    rewrite Hrest2.
    replace (eoi - soi - (eoi - (soi + 2)) `min` (length buf - (soi + 2))) with 2 by lia.
    done.
  - unfold closes_first. rewrite Hlen.
    rewrite (indexOf_drop buf EOI soi 2), Hsplit in Heoi.
    destruct (indexOf (frame ++ subarray_from buf (eoi + 2)) EOI 2) as [e|] eqn:He;
      [|done].
    injection Heoi as Heoi.
    apply indexOf_app_inv in He; [|done | simpl; lia].
    rewrite He. f_equal. lia.
Qed.

Lemma frames_in_shape buf :
  Forall (λ frame, delimited frame ∧ closes_first frame ∧ 4 ≤ length frame)
         (frames_in buf).
Proof.
  induction buf as [buf Hsoi|buf soi Hsoi Heoi|buf soi eoi Hsoi Heoi IH]
    using window_ind; rewrite frames_in_unfold, Hsoi; [constructor|..];
    rewrite Heoi; [constructor|].
  constructor; [|done].
  destruct (subarray_frame buf soi eoi Hsoi Heoi) as (Hd & Hc & Hlen & _).
  split; [done|]. split; [done|].
  apply indexOf_Some in Heoi as (Hle & _); [lia | done].
Qed.

(** X1: every frame the demuxer emits, under any chunking of any byte
    stream, starts with the start marker, ends with the end marker, is at
    least four bytes long, and holds no other end marker from offset 2 up
    to its closing one. *)
Theorem emitted_frames_delimited (chunks : list Buffer) :
  Forall (λ frame, delimited frame ∧ closes_first frame ∧ 4 ≤ length frame)
         (emitted chunks).
Proof. rewrite emitted_frames_in. apply frames_in_shape. Qed.


(** *** Bytes in, bytes out *)

Lemma truncate_le buf : length (truncate buf) ≤ length buf.
Proof.
  unfold truncate, subarray_from.
  destruct (Z.of_nat (length buf) >? 1024 * 1024)%Z; [|done].
  rewrite length_drop. lia.
Qed.

Lemma frames_in_bytes buf :
  sum_list_with length (frames_in buf) + length (remainder buf) ≤ length buf.
Proof.
  induction buf as [buf Hsoi|buf soi Hsoi Heoi|buf soi eoi Hsoi Heoi IH]
    using window_ind; rewrite frames_in_unfold, remainder_unfold, Hsoi.
  - simpl. apply truncate_le.
  - rewrite Heoi. simpl. lia.
  - rewrite Heoi. simpl.
    destruct (subarray_frame buf soi eoi Hsoi Heoi) as (_ & _ & Hlen & _).
    apply indexOf_Some in Heoi as (Hle & Helen & _); [|done]. simpl in Helen.
    unfold subarray_from in *. rewrite length_drop in IH. lia.
Qed.

Lemma frames_count l :
  Forall (λ frame : Buffer, 4 ≤ length frame) l →
  4 * length l ≤ sum_list_with length l.
Proof.
  induction 1 as [|frame l Hf _ IH]; [done|]. simpl. lia.
Qed.

(** X2: the frames emitted so far and the bytes still in the window
    together never hold more bytes than were fed, so no byte is emitted
    twice; and there is at most one emitted frame per four bytes fed. *)
Theorem emitted_bytes_bounded (chunks : list Buffer) :
  sum_list_with length (emitted chunks) + length (window chunks)
  ≤ length (concat chunks)
  ∧ 4 * length (emitted chunks) ≤ length (concat chunks).
Proof.
  assert (sum_list_with length (emitted chunks) + length (window chunks)
          ≤ length (concat chunks)) as Hbytes.
  { induction chunks as [|chunk chunks IH] using rev_ind; [done|].
    rewrite emitted_snoc, window_snoc, concat_app, sum_list_with_app.
    simpl. rewrite app_nil_r, length_app.
    pose proof (frames_in_bytes (window chunks ++ chunk)) as Hcall.
    rewrite length_app in Hcall. lia. }
  split; [done|].
  assert (4 * length (emitted chunks) ≤ sum_list_with length (emitted chunks));
    [|lia].
  apply frames_count. rewrite emitted_frames_in.
  eapply Forall_impl; [apply frames_in_shape|]. by intros frame (_ & _ & Hlen).
Qed.


(** *** A call without new bytes *)

Lemma truncate_idem buf : truncate (truncate buf) = truncate buf.
Proof.
  pose proof (truncate_length buf) as Hlen. unfold truncate at 1.
  by destruct (Z.gtb_spec (Z.of_nat (length (truncate buf))) (1024 * 1024));
    [lia|].
Qed.

Lemma remainder_idem buf : remainder (remainder buf) = remainder buf.
Proof.
  induction buf as [buf Hsoi|buf soi Hsoi Heoi|buf soi eoi Hsoi Heoi IH]
    using window_ind; rewrite (remainder_unfold buf), Hsoi.
  - rewrite remainder_unfold, truncate_no_start by done. apply truncate_idem.
  - rewrite Heoi. by rewrite remainder_unfold, Hsoi, Heoi.
  - by rewrite Heoi.
Qed.

Lemma window_settled chunks : remainder (window chunks) = window chunks.
Proof.
  destruct chunks as [|chunk chunks _] using rev_ind; [done|].
  rewrite window_snoc. apply remainder_idem.
Qed.

Lemma parse_all_app {St} (onFrame : Buffer → St → St) buf chunks1 chunks2 st :
  parse_all onFrame buf (chunks1 ++ chunks2) st
  = parse_all onFrame (parse_all onFrame buf chunks1 st).1 chunks2
              (parse_all onFrame buf chunks1 st).2.
Proof.
  revert buf st. induction chunks1 as [|chunk chunks1 IH]; intros buf st; [done|].
  simpl. destruct (parse onFrame buf chunk st) as [buf' st']. apply IH.
Qed.

(** X3: a call with an empty chunk is a no-op between any two calls: it
    emits no frame and leaves the window as it was. *)
Theorem empty_chunk_changes_nothing (before after : list Buffer) :
  emitted (before ++ [] :: after) = emitted (before ++ after)
  ∧ window (before ++ [] :: after) = window (before ++ after).
Proof.
  assert (feed_chunks (before ++ [[]]) = feed_chunks before) as Hidle.
  { apply injective_projections.
    - change (window (before ++ [[]]) = window before).
      by rewrite window_snoc, app_nil_r, window_settled.
    - change (emitted (before ++ [[]]) = emitted before).
      rewrite emitted_snoc, app_nil_r.
      rewrite <- window_settled, frames_in_remainder. apply app_nil_r. }
  assert (feed_chunks (before ++ [] :: after) = feed_chunks (before ++ after))
    as Hsame; [|unfold emitted, window; by rewrite Hsame].
  change (before ++ [] :: after) with (before ++ [[]] ++ after).
  rewrite app_assoc. unfold feed_chunks in *.
  rewrite (parse_all_app _ _ (before ++ [[]]) after).
  rewrite (parse_all_app _ _ before after). by rewrite Hidle.
Qed.


(** *** Noise between frames *)

Lemma frames_in_skip_noise noise frame rest :
  indexOf noise SOI 0 = None → delimited frame → closes_first frame →
  frames_in (noise ++ frame ++ rest) = frame :: frames_in rest.
Proof.
  intros Hnoise [payload Hframe] Hclose.
  rewrite <- frames_in_visible, visible_skip, frames_in_visible.
  - apply frames_in_cons; [by exists payload | done].
  - intros j Hj. destruct (decide (j + 2 ≤ length noise)) as [Hin|Hlast].
    + rewrite drop_app_le by lia.
      rewrite starts_with_app by (rewrite length_drop; simpl; lia).
      eapply indexOf_None; [done | lia].
    + rewrite drop_app_le by lia.
      pose proof (length_drop noise j) as Hlen.
      destruct (drop j noise) as [|c [|c' tl]]; simpl in Hlen; try lia.
      rewrite Hframe. simpl. by rewrite andb_false_r.
  - rewrite Hframe. done.
Qed.

(** X4: bytes with no start marker in them that stand before, between
    and after frames are skipped: a stream made of such noise and of
    frames that are delimited by the two markers and hold no earlier end
    marker yields, under any chunking, exactly those frames in order. *)
Theorem noise_between_frames_skipped
    (segments : list (Buffer * Buffer)) (tail : Buffer) (chunks : list Buffer) :
  Forall (λ seg, indexOf seg.1 SOI 0 = None
                 ∧ delimited seg.2 ∧ closes_first seg.2) segments →
  indexOf tail SOI 0 = None →
  concat chunks = concat ((λ seg, seg.1 ++ seg.2) <$> segments) ++ tail →
  emitted chunks = snd <$> segments.
Proof.
  intros Hsegs Htail Hstream. rewrite emitted_frames_in, Hstream.
  clear Hstream. induction Hsegs as [|[noise frame] segments (Hn & Hd & Hc) _ IH].
  - by apply frames_in_no_start.
  - rewrite !fmap_cons, concat_cons. cbn [fst snd].
    rewrite <- !app_assoc. rewrite frames_in_skip_noise by done. by rewrite IH.
Qed.

Lemma noise_between_frames_skipped_witness :
  emitted [[x00; xff; x01; xff]; [xd8; x07; xff; xd9; xff; xd9; x02; xff];
           [xff; xd8; xff]; [xd9; xff]]
  = [[xff; xd8; x07; xff; xd9]; [xff; xd8; xff; xd9]].
Proof.
  apply (noise_between_frames_skipped
           [([x00; xff; x01], [xff; xd8; x07; xff; xd9]);
            ([xff; xd9; x02; xff], [xff; xd8; xff; xd9])]
           [xff]).
  - repeat constructor; try reflexivity; simpl;
      [by exists [x07] | by exists []].
  - reflexivity.
  - reflexivity.
Defined.

(** *** What the window keeps *)

Lemma no_start_app_l (buf rest : Buffer) :
  indexOf (buf ++ rest) SOI 0 = None → indexOf buf SOI 0 = None.
Proof.
  intros Hn. destruct (indexOf buf SOI 0) as [soi|] eqn:Hsoi; [|done].
  by rewrite (indexOf_app_Some _ _ _ _ rest SOI_nonempty Hsoi) in Hn.
Qed.

(** X5: the window is always a suffix of the bytes fed so far, and when
    these hold no start marker it still holds their last 1024 bytes (all
    of them when there are fewer), so the first byte of a marker that is
    split over two chunks is never cut off. *)
Theorem window_keeps_tail (chunks : list Buffer) :
  window chunks `suffix_of` concat chunks
  ∧ (indexOf (concat chunks) SOI 0 = None →
     length (concat chunks) `min` 1024 ≤ length (window chunks)).
Proof.
  split; [apply window_suffix|].
  induction chunks as [|chunk chunks IH] using rev_ind; [simpl; lia|].
  rewrite concat_app, window_snoc. simpl. rewrite app_nil_r. intros Hnoise.
  specialize (IH (no_start_app_l _ _ Hnoise)).
  assert (indexOf (window chunks ++ chunk) SOI 0 = None) as Hw.
  { eapply suffix_no_start; [|done]. apply suffix_app, window_suffix. }
  rewrite remainder_unfold, Hw. unfold truncate, subarray_from.
  rewrite !length_app in *.
  destruct (Z.gtb_spec (Z.of_nat (length (window chunks) + length chunk))
              (1024 * 1024)) as [Hbig|Hsmall].
  - rewrite length_drop, length_app. lia.
  - rewrite length_app. lia.
Qed.

End DemuxerMore.

(* ================================================================= *)
(** ** More about the classifier adapter and the ranking              *)
(* ================================================================= *)

Module AdapterMore.
Import Adapter AdapterFacts Raster Pipeline PipelineFacts.

(** *** The destination array, byte by byte *)

(** Red, green and blue of pixel [k] are read at [4 * k + c]; what lies
    past the end of the data reads as zero. *)
Lemma rgba_to_rgb_lookup rgba k c :
  c < 3 →
  rgba_to_rgb rgba !! (3 * k + c)
  = if decide (3 * k + c < WIDTH * HEIGHT * 3)
    then Some (u8_get rgba (4 * k + c)) else None.
Proof.
  intros Hc. rewrite rgba_to_rgb_pixel by done.
  case_decide; [|done]. f_equal. case_decide; [done|].
  unfold u8_get. by rewrite lookup_ge_None_2 by lia.
Qed.

Lemma by_pixel (P : nat → Prop) :
  (∀ k c, c < 3 → P (3 * k + c)) → ∀ q, P q.
Proof.
  intros HP q. rewrite (Nat.div_mod_eq q 3). apply HP.
  apply Nat.mod_upper_bound. lia.
Qed.

Lemma rgba_to_rgb_ext a b :
  (∀ k c, c < 3 → u8_get a (4 * k + c) = u8_get b (4 * k + c)) →
  rgba_to_rgb a = rgba_to_rgb b.
Proof.
  intros Hab. apply list_eq. apply by_pixel. intros k c Hc.
  rewrite !rgba_to_rgb_lookup by done. by rewrite Hab.
Qed.

Lemma u8_get_pad (rgba : Buffer) n i :
  u8_get (rgba ++ replicate n x00) i = u8_get rgba i.
Proof.
  unfold u8_get. destruct (decide (i < length rgba)) as [Hin|Hout].
  - by rewrite lookup_app_l.
  - rewrite lookup_app_r, (lookup_ge_None_2 rgba) by lia.
    destruct (replicate n x00 !! (i - length rgba)) as [b|] eqn:Hb; [|done].
    by apply lookup_replicate in Hb as [-> _].
Qed.

(** X6: the alpha bytes and the length of the decoded data as such never
    reach the tensor: two buffers that agree on the red, green and blue
    byte of every pixel, a byte past the end counting as zero, give the
    same RGB array. *)
Theorem rgb_depends_on_colour_bytes_only (a b : Buffer) :
  (∀ k c, c < 3 → u8_get a (4 * k + c) = u8_get b (4 * k + c)) →
  rgba_to_rgb a = rgba_to_rgb b ∧ input_of a = input_of b.
Proof.
  intros Hab. pose proof (rgba_to_rgb_ext a b Hab) as Heq.
  split; [done|]. unfold input_of. by rewrite Heq.
Qed.

Lemma rgb_depends_on_colour_bytes_only_witness :
  rgba_to_rgb [x10; x20; x30; xff; x40] = rgba_to_rgb [x10; x20; x30; x07; x40; x00]
  ∧ input_of [x10; x20; x30; xff; x40] = input_of [x10; x20; x30; x07; x40; x00].
Proof.
  apply rgb_depends_on_colour_bytes_only.
  intros [|[|k]] [|[|[|c]]] Hc; try reflexivity; try lia;
    unfold u8_get; by rewrite !lookup_ge_None_2 by (simpl; lia).
Defined.

(** X7: data that ends early, also in the middle of a pixel, is read as
    if it were filled up with zero bytes: appending any number of zero
    bytes to the decoded data changes nothing. *)
Theorem short_data_is_zero_filled (rgba : Buffer) (n : nat) :
  rgba_to_rgb (rgba ++ replicate n x00) = rgba_to_rgb rgba.
Proof. apply rgba_to_rgb_ext. intros k c _. apply u8_get_pad. Qed.


(** *** Whole rasters *)

Lemma rgba_bytes_lookup pixels k c :
  c < 4 → rgba_bytes pixels !! (4 * k + c) = (λ q, channel q c) <$> pixels !! k.
Proof.
  intros Hc. revert k. induction pixels as [|q pixels IH]; intros k.
  - by rewrite !lookup_nil.
  - unfold rgba_bytes in *. rewrite bind_cons. destruct k as [|k].
    + rewrite lookup_app_l by (simpl; lia).
      by destruct c as [|[|[|[|c]]]]; [..|lia].
    + rewrite lookup_app_r by (simpl; lia).
      replace (4 * S k + c - length [red q; green q; blue q; alpha q])
        with (4 * k + c) by (simpl; lia).
      apply IH.
Qed.

Lemma rgb_bytes_lookup pixels k c :
  c < 3 → rgb_bytes pixels !! (3 * k + c) = (λ q, channel q c) <$> pixels !! k.
Proof.
  intros Hc. revert k. induction pixels as [|q pixels IH]; intros k.
  - by rewrite !lookup_nil.
  - unfold rgb_bytes in *. rewrite bind_cons. destruct k as [|k].
    + rewrite lookup_app_l by (simpl; lia).
      by destruct c as [|[|[|c]]]; [..|lia].
    + rewrite lookup_app_r by (simpl; lia).
      replace (3 * S k + c - length [red q; green q; blue q])
        with (3 * k + c) by (simpl; lia).
      apply IH.
Qed.

Lemma rgb_bytes_length pixels : length (rgb_bytes pixels) = 3 * length pixels.
Proof.
  induction pixels as [|q pixels IH]; [done|].
  unfold rgb_bytes in *. rewrite bind_cons, length_app, IH. simpl. lia.
Qed.

Lemma rgba_to_rgb_pixels pixels :
  rgba_to_rgb (rgba_bytes pixels)
  = rgb_bytes (take (WIDTH * HEIGHT) pixels)
    ++ replicate (3 * (WIDTH * HEIGHT - length pixels)) x00.
Proof.
  apply list_eq. apply by_pixel. intros k c Hc.
  rewrite rgba_to_rgb_lookup by done. unfold u8_get.
  rewrite rgba_bytes_lookup by lia.
  generalize (WIDTH * HEIGHT). intros n.
  destruct (decide (k < n `min` length pixels)) as [Hin|Hout].
  - rewrite lookup_app_l by (rewrite rgb_bytes_length, length_take; lia).
    rewrite rgb_bytes_lookup by done. rewrite lookup_take_lt by lia.
    rewrite decide_True by lia.
    destruct (lookup_lt_is_Some_2 pixels k) as [q Hq]; [lia|]. by rewrite Hq.
  - rewrite lookup_app_r by (rewrite rgb_bytes_length, length_take; lia).
    rewrite rgb_bytes_length, length_take.
    case_decide as Hk.
    + rewrite lookup_replicate_2 by lia.
      by rewrite (lookup_ge_None_2 pixels k) by lia.
    + symmetry. apply lookup_replicate_None. lia.
Qed.

(** X8: on a raster given pixel by pixel the conversion drops the alpha
    byte of every pixel and keeps red, green and blue in order; pixels
    beyond the first 224 * 224 are cut off and missing ones are three zero
    bytes each.  For a raster of exactly 224 * 224 pixels, as ffmpeg is
    asked to scale to, the result is the raster without alpha. *)
Theorem rgb_of_raster (pixels : list Pixel) :
  rgba_to_rgb (rgba_bytes pixels)
  = rgb_bytes (take (WIDTH * HEIGHT) pixels)
    ++ replicate (3 * (WIDTH * HEIGHT - length pixels)) x00
  ∧ (length pixels = WIDTH * HEIGHT →
     rgba_to_rgb (rgba_bytes pixels) = rgb_bytes pixels).
Proof.
  split; [apply rgba_to_rgb_pixels|]. intros Hlen.
  rewrite rgba_to_rgb_pixels, <- Hlen, firstn_all, Nat.sub_diag.
  apply app_nil_r.
Qed.

(** *** Black input *)

Lemma rgba_to_rgb_zeros n :
  rgba_to_rgb (replicate n x00) = replicate (WIDTH * HEIGHT * 3) x00.
Proof.
  apply list_eq. apply by_pixel. intros k c Hc.
  rewrite rgba_to_rgb_lookup by done.
  assert (u8_get (replicate n x00) (4 * k + c) = x00) as ->.
  { apply (u8_get_pad [] n). }
  case_decide.
  - by rewrite lookup_replicate_2.
  - symmetry. apply lookup_replicate_None. lia.
Qed.

(** X9: decoded data that is empty or all zero gives exactly the tensor
    the model was warmed up with: shape 1 x 224 x 224 x 3, every entry
    zero. *)
Theorem black_input_is_warmup_input (n : nat) :
  make_input (replicate n x00) = Some warmup_input.
Proof.
  rewrite make_input_Some. f_equal. unfold warmup_input, zeros.
  rewrite rgba_to_rgb_zeros, fmap_replicate.
  assert (byte_value x00 / 255 = 0)%R as ->.
  { unfold byte_value. simpl. lra. }
  assert (WIDTH * HEIGHT * 3 = foldr Nat.mul 1 [1; IMAGE_SIZE; IMAGE_SIZE; 3])
    as -> by (unfold WIDTH, HEIGHT, IMAGE_SIZE; cbn [foldr]; lia).
  reflexivity.
Qed.


(** *** Ranking: size, maximum, ties *)

Lemma topK_head_max probs k best others x :
  topK probs k = best :: others → x ∈ probs → (x <= p best)%R.
Proof.
  intros Htop [i Hi]%list_elem_of_lookup.
  destruct (topK_ranked probs k) as (rest & Hperm & Hsorted).
  rewrite Htop in Hperm, Hsorted. simpl in Hperm, Hsorted.
  apply StronglySorted_cons in Hsorted as [Hbest _].
  assert ({| label := label_of i; p := x |} ∈ best :: others ++ rest) as Hin.
  { rewrite Hperm. eapply list_elem_of_lookup_2, entries_of_lookup, Hi. }
  apply elem_of_cons in Hin as [<-|Hin]; [simpl; lra|].
  rewrite Forall_forall in Hbest. apply (Hbest _ Hin).
Qed.

(** X10: [topK(probs, k)] returns [min(k, probs.length)] entries, none
    for an empty distribution, and its first entry carries a probability
    that no entry of the distribution exceeds. *)
Theorem topK_size_and_maximum (probs : list R) (k : nat) :
  length (topK probs k) = k `min` length probs
  ∧ match topK probs k with
    | [] => probs = [] ∨ k = 0
    | best :: _ => Forall (λ x, x <= p best)%R probs
    end.
Proof.
  split; [apply topK_size|].
  destruct (topK probs k) as [|best others] eqn:Htop.
  - pose proof (topK_size probs k) as Hsize. rewrite Htop in Hsize.
    destruct probs; [by left|]. simpl in Hsize. right. lia.
  - apply Forall_forall. intros x Hx. by eapply topK_head_max.
Qed.

Lemma sort_desc_sorted_id l :
  StronglySorted ranks_before l → sort_desc l = l.
Proof.
  induction 1 as [|x l Hsorted IH Hall]; [done|]. simpl. rewrite IH.
  destruct Hall as [|y l Hxy _]; [done|]. simpl.
  by destruct (Rle_dec (p y) (p x)).
Qed.

Lemma entries_of_probs probs : p <$> entries_of probs = probs.
Proof.
  unfold entries_of. rewrite fmap_imap.
  rewrite <- (list_fmap_id probs) at 2. by rewrite <- imap_const.
Qed.

Lemma entries_of_sorted probs :
  StronglySorted (λ x y, y <= x)%R probs →
  StronglySorted ranks_before (entries_of probs).
Proof.
  intros Hsorted. rewrite <- (entries_of_probs probs) in Hsorted.
  revert Hsorted. generalize (entries_of probs). intros l.
  induction l as [|e l IH]; [constructor|].
  rewrite fmap_cons. intros [Hall Hs]%StronglySorted_cons.
  constructor; [by apply IH|]. by rewrite Forall_fmap in Hall.
Qed.

(** X11: the sort keeps entries that are already in descending order,
    ties included, where they are: for a distribution whose probabilities
    never increase, the ranking is the first [k] labels in label order. *)
Theorem ranking_of_descending_distribution (probs : list R) (k : nat) :
  StronglySorted (λ x y, y <= x)%R probs →
  topK probs k = take k (entries_of probs).
Proof.
  intros Hsorted. unfold topK.
  by rewrite sort_desc_sorted_id by by apply entries_of_sorted.
Qed.

Lemma ranking_of_descending_distribution_witness :
  topK [0.5; 0.2; 0.2; 0.1; 0]%R 2
  = take 2 (entries_of [0.5; 0.2; 0.2; 0.1; 0]%R).
Proof.
  apply ranking_of_descending_distribution.
  repeat constructor; lra.
Defined.


(** *** Labels *)

Lemma decimal_label_inj i j :
  NilZero.string_of_uint (Nat.to_uint i) = NilZero.string_of_uint (Nat.to_uint j) →
  i = j.
Proof.
  intros Heq.
  assert (∀ n, NilZero.uint_of_string (NilZero.string_of_uint (Nat.to_uint n))
               = Some (Nat.to_uint n)) as Hback.
  { intros n. apply NilZero.usu.
    rewrite <- (DecimalNat.Unsigned.of_to n) at 1.
    rewrite DecimalNat.Unsigned.to_of. apply DecimalFacts.unorm_nonnil. }
  pose proof (Hback i) as Hi. rewrite Heq, Hback in Hi.
  injection Hi as Hi. apply (f_equal Nat.of_uint) in Hi.
  by rewrite !DecimalNat.Unsigned.of_to in Hi.
Qed.

Lemma configured_label_not_decimal i l j :
  LABELS !! i = Some l → l ≠ NilZero.string_of_uint (Nat.to_uint j).
Proof.
  intros Hl Heq.
  assert (NilZero.uint_of_string l = None) as Hnone.
  { do 5 (destruct i as [|i]; [by injection Hl as <-|]). done. }
  rewrite Heq in Hnone.
  by destruct (NilZero.usu_gen (Nat.to_uint j)) as [Hs|Hs]; rewrite Hs in Hnone.
Qed.

Lemma label_of_inj i j : label_of i = label_of j → i = j.
Proof.
  unfold label_of.
  destruct (LABELS !! i) as [li|] eqn:Hi, (LABELS !! j) as [lj|] eqn:Hj; simpl.
  - intros ->.
    do 5 (destruct i as [|i];
          [injection Hi as <-;
           do 5 (destruct j as [|j]; [by simplify_eq/=|]); by simplify_eq/=|]).
    done.
  - intros Heq. by destruct (configured_label_not_decimal i li j Hi).
  - intros Heq. by destruct (configured_label_not_decimal j lj i Hj).
  - apply decimal_label_inj.
Qed.

(** X12: labels identify indices: two different indices never get the
    same label, whether they lie inside the configured label set or are
    named by their decimal index beyond it. *)
Theorem labels_are_distinct (i j : nat) :
  i ≠ j → label_of i ≠ label_of j.
Proof. intros Hne Heq. by apply Hne, label_of_inj. Qed.

Lemma labels_are_distinct_witness : label_of 2 ≠ label_of 12.
Proof. apply labels_are_distinct. lia. Defined.

End AdapterMore.

(* ================================================================= *)
(** ** More about the handler                                         *)
(* ================================================================= *)

Module PipelineMore.
Import Demuxer DemuxerFacts Adapter AdapterFacts Pipeline PipelineFacts Observations.

(** *** The gate opens again *)

(** X14: however the awaited promise of the pending inference settles,
    the flag is clear afterwards, nothing is in flight, and the next
    frame that reaches the gate is handed to the decoder. *)
Theorem gate_reopens_after_settling world st o w frame :
  reachable world st →
  busy (resume o st) = false
  ∧ in_flight (resume o st) = 0
  ∧ ∃ rest, trace (snd (gate w frame (resume o st)))
            = trace (resume o st) ++ SetBusy true :: Decode frame :: rest.
Proof.
  intros Hst%reachable_flag.
  assert (busy (resume o st) = false ∧ awaiting (resume o st) = []) as [Hb Ha].
  { destruct Hst as [[Hb Ha]|[Hb [probs Ha]]].
    - unfold resume. by rewrite Ha.
    - by destruct (resume_resets o st probs [] Ha) as (? & _ & ?). }
  split; [done|]. split; [unfold in_flight; by rewrite Ha|].
  rewrite gate_free by done.
  destruct (infer_trace w frame (set_busy true (resume o st))) as [rest ->].
  exists rest. simpl. by rewrite <- app_assoc.
Qed.

Lemma gate_reopens_after_settling_witness :
  let world := Samples.always Samples.decodes_fine in
  let st := callback world Samples.frame_a init in
  busy (resume (Resolved 1000) st) = false
  ∧ in_flight (resume (Resolved 1000) st) = 0
  ∧ ∃ rest, trace (snd (gate Samples.decodes_fine Samples.frame_b
                          (resume (Resolved 1000) st)))
            = trace (resume (Resolved 1000) st)
              ++ SetBusy true :: Decode Samples.frame_b :: rest.
Proof.
  apply (gate_reopens_after_settling (Samples.always Samples.decodes_fine)).
  apply reach_call, reach_init.
Defined.

(** *** Counting *)

Lemma predicts_app tr1 tr2 : predicts (tr1 ++ tr2) = predicts tr1 ++ predicts tr2.
Proof. apply omap_app. Qed.
Lemma flag_writes_app tr1 tr2 :
  flag_writes (tr1 ++ tr2) = flag_writes tr1 ++ flag_writes tr2.
Proof. apply omap_app. Qed.

Ltac count_trace :=
  unfold counts_nested, in_flight in *; simpl in *;
  rewrite ?logs_app, ?predicts_app, ?decodes_app, ?length_app in *;
  simpl in *; try lia.

Lemma callback_counts world frame st :
  counts_nested st → counts_nested (callback world frame st).
Proof.
  intros Hst. handler_paths; count_trace.
Qed.

Lemma resume_counts o st : counts_nested st → counts_nested (resume o st).
Proof.
  intros Hst. unfold resume, report, counts_nested, in_flight in *.
  destruct (awaiting st) as [|probs rest] eqn:Ha; [by rewrite Ha|].
  destruct o as [now|]; simpl;
    [destruct (now - lastLog st >? 500)%Z; [destruct (topK probs 2)|]|];
    count_trace.
Qed.

(** X15: in every state the pipeline goes through, the reports logged
    plus the inferences still pending are at most the classifier calls,
    which are at most the decoder calls, which are at most the frames the
    handler received. *)
Theorem reports_predictions_decodes_frames world st :
  reachable world st →
  length (logs (trace st)) + in_flight st ≤ length (predicts (trace st))
  ∧ length (predicts (trace st)) ≤ length (decodes (trace st))
  ∧ length (decodes (trace st)) ≤ length (received st).
Proof.
  induction 1 as [|frame st _ IH|o st _ IH].
  - unfold in_flight. simpl. lia.
  - by apply callback_counts.
  - by apply resume_counts.
Qed.


(** *** Writes of the flag *)

Lemma alternating_snoc next l b :
  alternating next l = true →
  default (negb next) (last l) = negb b →
  alternating next (l ++ [b]) = true.
Proof.
  revert next. induction l as [|x l IH]; intros next Halt Hlast; simpl in *.
  - destruct b, next; done.
  - apply andb_true_iff in Halt as [Hx Halt]. rewrite Hx. simpl.
    apply IH; [done|]. apply Bool.eqb_prop in Hx as ->.
    rewrite Bool.negb_involutive. rewrite last_cons in Hlast.
    by destruct (last l).
Qed.

Lemma set_busy_disciplined b st :
  flag_disciplined st → busy st = negb b → flag_disciplined (set_busy b st).
Proof.
  intros [Halt Hlast] Hb. unfold flag_disciplined. simpl.
  rewrite flag_writes_app. simpl. split; [|by rewrite last_snoc].
  apply alternating_snoc; [done|]. change (negb true) with false.
  by rewrite <- Hlast.
Qed.

Lemma emit_disciplined e st :
  (∀ b, e ≠ SetBusy b) → flag_disciplined st → flag_disciplined (emit e st).
Proof.
  intros He [Halt Hlast]. unfold flag_disciplined. simpl.
  rewrite flag_writes_app.
  assert (flag_writes [e] = []) as -> by (destruct e; [done | by destruct (He b) | done..]).
  by rewrite app_nil_r.
Qed.

Lemma callback_disciplined world frame st :
  flag_disciplined st → flag_disciplined (callback world frame st).
Proof.
  intros Hst.
  assert (flag_disciplined (receive frame st)) as Hr by done.
  handler_paths;
    repeat first [ done
                 | apply set_busy_disciplined
                 | apply emit_disciplined; [done|] ].
Qed.

Lemma report_disciplined now probs st :
  flag_disciplined st →
  flag_disciplined (report now probs st) ∧ busy (report now probs st) = busy st.
Proof.
  intros Hst. unfold report.
  destruct (now - lastLog st >? 500)%Z; [|done].
  destruct (topK probs 2); [done|]. split; [|done].
  by apply emit_disciplined.
Qed.

Lemma resume_disciplined o st :
  flag_tracks_flight st → flag_disciplined st → flag_disciplined (resume o st).
Proof.
  intros [[Hb Ha]|[Hb [probs Ha]]] Hst; unfold resume; rewrite Ha; [done|].
  assert (flag_disciplined (set_awaiting [] st)) as Hst' by done.
  destruct o as [now|]; [|by apply set_busy_disciplined].
  destruct (report_disciplined now probs (set_awaiting [] st) Hst') as [Hr Hbusy].
  apply set_busy_disciplined; [done|]. by rewrite Hbusy.
Qed.

(** X16: in every state the pipeline goes through, the values written to
    the flag so far alternate, true first: it is never set twice without
    a reset in between and never reset twice; and the flag holds the
    value written last. *)
Theorem flag_writes_alternate world st :
  reachable world st →
  alternating true (flag_writes (trace st)) = true
  ∧ busy st = default false (last (flag_writes (trace st))).
Proof.
  induction 1 as [|frame st Hst IH|o st Hst IH].
  - done.
  - by apply callback_disciplined.
  - apply resume_disciplined; [by eapply reachable_flag | done].
Qed.

Lemma flag_writes_alternate_witness :
  let world := Samples.always Samples.decode_fails in
  let st := callback world Samples.frame_b (callback world Samples.frame_a init) in
  alternating true (flag_writes (trace st)) = true
  ∧ busy st = default false (last (flag_writes (trace st))).
Proof.
  apply (flag_writes_alternate (Samples.always Samples.decode_fails)).
  apply reach_call, reach_call, reach_init.
Defined.

Lemma reports_predictions_decodes_frames_witness :
  let world := Samples.always Samples.decodes_fine in
  let st := callback world Samples.frame_b
              (resume (Resolved 1000) (callback world Samples.frame_a init)) in
  length (logs (trace st)) + in_flight st ≤ length (predicts (trace st))
  ∧ length (predicts (trace st)) ≤ length (decodes (trace st))
  ∧ length (decodes (trace st)) ≤ length (received st).
Proof.
  apply (reports_predictions_decodes_frames (Samples.always Samples.decodes_fine)).
  apply reach_call, reach_resume, reach_call, reach_init.
Defined.

End PipelineMore.

(* ================================================================= *)
(** ** Facts about the model loader                                   *)
(* ================================================================= *)

Module LoaderFacts.
Import Loader.

Lemma total_length (bufs : list Buffer) acc :
  foldl (λ s b, s + length b) acc bufs = acc + length (concat bufs).
Proof.
  revert acc. induction bufs as [|b bufs IH]; intros acc; simpl; [lia|].
  rewrite IH, length_app. lia.
Qed.

(** The loop, started behind what is already written. *)
Lemma copy_all_behind bufs (done_ rest : Buffer) :
  length (concat bufs) ≤ length rest →
  copy_all bufs (done_ ++ rest) (length done_)
  = Some (done_ ++ concat bufs ++ drop (length (concat bufs)) rest).
Proof.
  revert done_ rest. induction bufs as [|b bufs IH]; intros done_ rest Hfit.
  - simpl. by rewrite drop_0.
  - simpl in *. rewrite length_app in Hfit. unfold set_at.
    rewrite decide_True by (rewrite length_app; lia). simpl.
    rewrite take_app_length, drop_app_add.
    replace (done_ ++ b ++ drop (length b) rest)
      with ((done_ ++ b) ++ drop (length b) rest) by by rewrite <- app_assoc.
    rewrite <- length_app, IH by (rewrite length_drop; lia).
    rewrite drop_drop, length_app, <- !app_assoc. done.
Qed.

Lemma join_weights_concat bufs : join_weights bufs = Some (concat bufs).
Proof.
  unfold join_weights. rewrite total_length. simpl.
  pose proof (copy_all_behind bufs [] (replicate (length (concat bufs)) x00)) as H.
  simpl in H. rewrite H by (rewrite length_replicate; lia).
  rewrite drop_ge by (rewrite length_replicate; lia). by rewrite app_nil_r.
Qed.

(** X17: the copy loop never writes out of range, and the weight data it
    builds is the array buffers back to back in their order, as long as
    all of them together. *)
Theorem weights_joined_in_order (bufs : list Buffer) :
  join_weights bufs = Some (concat bufs)
  ∧ length (concat bufs) = sum_list_with length bufs.
Proof.
  split; [apply join_weights_concat|].
  induction bufs as [|b bufs IH]; [done|]. simpl. rewrite length_app. lia.
Qed.

Lemma contents_spans b : spans_arraybuffer b → contents b = arraybuffer b.
Proof.
  intros [Hoff Hlen]. unfold contents. rewrite Hoff, Hlen, drop_0.
  by rewrite take_ge.
Qed.

Lemma contents_unpooled file : contents (unpooled file) = file.
Proof. apply contents_spans. by split. Qed.

Lemma contents_pooled before file after :
  contents (pooled before file after) = file.
Proof.
  unfold contents, pooled. simpl.
  by rewrite drop_app_length, take_app_length.
Qed.

Section LoadFacts.
Context {Json : Type} (readFileSync : nat → string → option FileBuffer).

(** [map] gives a result for every element in turn, or stops at an
    element whose callback raises. *)
Lemma map_raising_Some {A B} (f : nat → A → option B) (l : list A) rs :
  map_raising f l = Some rs →
  length rs = length l ∧ ∀ k x, l !! k = Some x → f k x = rs !! k.
Proof.
  unfold map_raising. revert f rs.
  induction l as [|y l IH]; intros f rs; simpl.
  - intros [= <-]. by split.
  - destruct (f 0 y) as [r|] eqn:Hy; [|done]. simpl.
    destruct (mapM (λ r, r) (imap (f ∘ S) l)) as [rs'|] eqn:Hrest; [|done]. simpl.
    intros [= <-]. destruct (IH _ _ Hrest) as [Hlen Hall].
    split; [simpl; by rewrite Hlen|].
    intros [|k] x Hx; simpl in *; [by injection Hx as <- | by apply Hall].
Qed.

Lemma map_raising_None {A B} (f : nat → A → option B) (l : list A) :
  map_raising f l = None → ∃ k x, l !! k = Some x ∧ f k x = None.
Proof.
  unfold map_raising. revert f.
  induction l as [|y l IH]; intros f; simpl; [done|].
  destruct (f 0 y) as [r|] eqn:Hy; [|intros _; by exists 0, y]. simpl.
  destruct (mapM (λ r, r) (imap (f ∘ S) l)) as [rs'|] eqn:Hrest; [done|].
  intros _. destruct (IH _ Hrest) as (k & x & Hx & Hk). by exists (S k), x.
Qed.

Lemma map_raising_fmap {A B C} (g : B → C) (f : nat → A → option B) l :
  map_raising (λ k x, g <$> f k x) l
  = (λ rs : list B, g <$> rs) <$> map_raising f l.
Proof.
  unfold map_raising. revert f.
  induction l as [|y l IH]; intros f; [done|]. simpl.
  destruct (f 0 y) as [r|]; [|done]. simpl.
  change ((λ k x, g <$> f k x) ∘ S) with (λ k x, g <$> (f ∘ S) k x).
  rewrite IH. by destruct (mapM (λ r, r) (imap (f ∘ S) l)).
Qed.

Lemma concat_contents (files : list FileBuffer) :
  Forall spans_arraybuffer files →
  concat (arraybuffer <$> files) = concat (contents <$> files).
Proof.
  induction 1 as [|b files Hb _ IH]; [done|].
  rewrite !fmap_cons, !concat_cons, IH. by rewrite contents_spans.
Qed.

(** X18: loading is all or nothing.  When [model.json] parses, either
    every weight file listed in the manifest is read, in manifest order,
    and then the weight data is the array buffers behind the files'
    [Buffer]s, whole and back to back in that order, the weight specs
    are the groups' specs in manifest order and the topology is handed
    on; or some listed file cannot be read and the load fails.  The
    weight data is the files' bytes back to back when every [Buffer] is
    all of its array buffer. *)
Theorem load_all_or_nothing (modelJSON : ModelJSON Json) :
  let weightPaths := flatMap paths (weightsManifest modelJSON) in
  match load readFileSync (Some modelJSON) with
  | Some artifacts =>
      ∃ files, length files = length weightPaths
               ∧ (∀ k path, weightPaths !! k = Some path →
                            readFileSync k path = files !! k)
               ∧ weightData artifacts = concat (arraybuffer <$> files)
               ∧ (Forall spans_arraybuffer files →
                  weightData artifacts = concat (contents <$> files))
               ∧ weightSpecs artifacts
                 = flatMap weights (weightsManifest modelJSON)
               ∧ art_modelTopology artifacts = modelTopology modelJSON
  | None => ∃ k path, weightPaths !! k = Some path ∧ readFileSync k path = None
  end.
Proof.
  intros weightPaths. unfold load. simpl. fold weightPaths.
  unfold read_weights. rewrite (map_raising_fmap arraybuffer).
  destruct (map_raising readFileSync weightPaths) as [files|] eqn:Hread; simpl.
  - rewrite join_weights_concat. simpl.
    destruct (map_raising_Some _ _ _ Hread) as [Hlen Hall].
    exists files. split; [done|]. split; [done|]. split; [done|].
    split; [apply concat_contents | done].
  - by apply map_raising_None.
Qed.
End LoadFacts.

(** Two weight files: one of 4096 bytes, whose [Buffer] has an array
    buffer of its own, and one of a single byte, whose [Buffer] is cut
    from a pool of 2 * 4096 bytes, 16 of them taken before.  The weight data
    is the first file followed by the whole pool. *)
Example load_two_files :
  let small := pooled (replicate 16 xaa) [x03] (replicate (2 * 4096 - 17) x00) in
  let files (k : nat) p :=
    if String.eqb p "w1.bin" then Some (unpooled (replicate 4096 x01))
    else if String.eqb p "w2.bin" then Some small
    else None in
  let json := {| modelTopology := "topology"; format := "layers-model";
                 generatedBy := "tm"; convertedBy := "tfjs";
                 weightsManifest := [ {| paths := ["w1.bin"; "w2.bin"];
                                         weights := ["dense"; "bias"] |} ] |}%string in
  contents small = [x03]
  ∧ weightData <$> load files (Some json)
    = Some (replicate 4096 x01
            ++ replicate 16 xaa ++ [x03] ++ replicate (2 * 4096 - 17) x00)
  ∧ length <$> (weightData <$> load files (Some json)) = Some (4096 + 2 * 4096).
Proof. vm_compute. done. Qed.

(** A listed file that cannot be read. *)
Example load_missing_file :
  let files (k : nat) p :=
    if String.eqb p "w1.bin" then Some (unpooled (replicate 4096 x01))
    else None in
  load files
       (Some {| modelTopology := "topology"; format := "layers-model";
                generatedBy := "tm"; convertedBy := "tfjs";
                weightsManifest := [ {| paths := ["w1.bin"; "gone.bin"];
                                        weights := ["dense"] |} ] |}%string)
  = None.
Proof. vm_compute. done. Qed.

End LoaderFacts.
